(** * Minesweeper and the S-parameter merger
    (src/minesweeper.py, src/merge_sparams.py)

    A shallow embedding of the [Minesweeper] class: construction with mine
    placement and neighbour-count precomputation, the flood-fill [reveal],
    [toggle_flag] and [is_won], followed by the properties of the engine;
    of [display], [parse_dimensions] and the loop of [main] that drive it;
    and, in a module of its own, of the file-name and header functions of
    the merger.

    Python sets of coordinate pairs are [gset (Z * Z)], the dictionary
    [neighbor_counts] is a [gmap (Z * Z) Z], Python integers are [Z] (with
    floor division and modulo, which agree with Python's [//] and [%] for a
    positive divisor).  The outcome of [random.sample] is an explicit
    argument of the constructor.  Text is [list ascii], each character
    standing for the code point of its number (0 to 255); what is read
    from the terminal is a list of lines, what is written a list of
    outputs; the built-in [int] is a parameter of the driver. *)

From stdpp Require Import gmap list fin_sets fin_maps strings pretty.
From Stdlib Require Import ZArith Lia Ascii.

#[local] Set Warnings "-clear-no-such-hyp".

Open Scope Z_scope.

(** * Python's built-in string operations, on the code points 0 to 255

    The text handled by the two scripts is modelled as [list ascii], the
    character of number [n] standing for the code point [n]; the
    operations below are those of [str] on such text, with the
    whitespace and the letter case that Python gives these 256 code
    points (text with code points above 255 is out of scope). *)
Module PyStr.

Abbreviation str := (list ascii).

(** A string literal. *)
Definition lit (s : String.string) : str := String.list_ascii_of_string s.

(** [c.isspace()], the whitespace of [strip] and [split]: tab, line
    feed, vertical tab, form feed, carriage return, the four separators
    28 to 31, the space, the next-line control 133 (U+0085) and the
    no-break space 160 (U+00A0). *)
Definition isspace (a : ascii) : bool :=
  let n := nat_of_ascii a in
  ((9 <=? n) && (n <=? 13) || (28 <=? n) && (n <=? 32)
   || (n =? 133) || (n =? 160))%nat.

(** A string of whitespace only (the empty string included). *)
Definition blank (s : str) : Prop := Forall (λ a, isspace a = true) s.

(** [s.lstrip()], [s.rstrip()] and [s.strip()] *)
Fixpoint lstrip (s : str) : str :=
  match s with
  | [] => []
  | a :: s' => if isspace a then lstrip s' else s
  end.

Definition rstrip (s : str) : str := reverse (lstrip (reverse s)).

Definition strip (s : str) : str := lstrip (rstrip s).

(** [s.split()]: the maximal runs of non-whitespace characters, in
    order; [tok] is the run being read. *)
Definition flush (tok : str) : list str :=
  match tok with [] => [] | _ => [tok] end.

Fixpoint split_go (tok : str) (s : str) : list str :=
  match s with
  | [] => flush tok
  | a :: s' =>
    if isspace a then flush tok ++ split_go [] s'
    else split_go (tok ++ [a]) s'
  end.

Definition split (s : str) : list str := split_go [] s.

(** A decimal digit, the class [\d] of the regular expressions: among
    the code points 0 to 255 these are the ten characters 0 to 9. *)
Definition isdigit (a : ascii) : bool :=
  let n := nat_of_ascii a in ((48 <=? n) && (n <=? 57))%nat.

(** [s.lower()]: the letters A to Z, and the accented capitals 192 to 222
    other than the multiplication sign 215, move up by 32; every other
    character is kept. *)
Definition lower_char (a : ascii) : ascii :=
  let n := nat_of_ascii a in
  if ((65 <=? n) && (n <=? 90)
      || (192 <=? n) && (n <=? 222) && negb (n =? 215))%nat
  then ascii_of_nat (n + 32) else a.

Definition lower (s : str) : str := lower_char <$> s.

(** [s.startswith(p)] *)
Fixpoint startswith (p s : str) : bool :=
  match p, s with
  | [], _ => true
  | a :: p', b :: s' => bool_decide (a = b) && startswith p' s'
  | _ :: _, [] => false
  end.

(** [sep.join(parts)] *)
Fixpoint join (sep : str) (parts : list str) : str :=
  match parts with
  | [] => []
  | [p] => p
  | p :: rest => p ++ sep ++ join sep rest
  end.

(** [str(n)] and the format [d] of an integer. *)
Definition of_int (n : Z) : str := lit (pretty n).

(** The formats [{x:2d}] (right-aligned in a field of two) and [{s:2s}]
    (left-aligned in a field of two). *)
Definition format_2d (n : Z) : str :=
  let s := of_int n in replicate (2 - length s) " "%char ++ s.

Definition format_2s (s : str) : str :=
  s ++ replicate (2 - length s) " "%char.

(** ** Properties *)

(** The whitespace among the 256 code points, and the characters that
    [lower] changes. *)
Lemma isspace_code_points a :
  isspace a = bool_decide (nat_of_ascii a ∈
    [9; 10; 11; 12; 13; 28; 29; 30; 31; 32; 133; 160]%nat).
Proof. destruct a as [[] [] [] [] [] [] [] []]; vm_compute; reflexivity. Qed.

Lemma lower_char_code_points a :
  let n := nat_of_ascii a in
  nat_of_ascii (lower_char a) =
    if bool_decide ((65 ≤ n ≤ 90 ∨ 192 ≤ n ≤ 214 ∨ 216 ≤ n ≤ 222)%nat)
    then (n + 32)%nat else n.
Proof. destruct a as [[] [] [] [] [] [] [] []]; vm_compute; reflexivity. Qed.

Lemma lower_char_idemp a : lower_char (lower_char a) = lower_char a.
Proof. destruct a as [[] [] [] [] [] [] [] []]; vm_compute; reflexivity. Qed.

(** The no-break space and the next-line control separate fields and
    are stripped, as the space is. *)
Example split_no_break_space :
  split (lit "r" ++ ["160"%char] ++ lit "0" ++ ["133"%char] ++ lit "1")
  = [lit "r"; lit "0"; lit "1"].
Proof. vm_compute. reflexivity. Qed.

Example strip_no_break_space :
  strip (["160"%char; " "%char] ++ lit "q" ++ ["133"%char]) = lit "q".
Proof. vm_compute. reflexivity. Qed.

Lemma blank_app s1 s2 : blank (s1 ++ s2) ↔ blank s1 ∧ blank s2.
Proof. apply Forall_app. Qed.

Lemma lstrip_blank s : blank s → lstrip s = [].
Proof. induction 1 as [|a s Ha _ IH]; simpl; [done|]. by rewrite Ha. Qed.

Lemma lstrip_app_blank ws s : blank ws → lstrip (ws ++ s) = lstrip s.
Proof. induction 1 as [|a ws Ha _ IH]; simpl; [done|]. by rewrite Ha. Qed.

Lemma lstrip_nil_blank s : lstrip s = [] → blank s.
Proof.
  induction s as [|a s IH]; simpl; [constructor|].
  destruct (isspace a) eqn:Ha; [|done]. intros H.
  constructor; [done|by apply IH].
Qed.

Lemma lstrip_decomp s : ∃ ws, blank ws ∧ s = ws ++ lstrip s.
Proof.
  induction s as [|a s (ws & Hws & IH)]; simpl.
  { exists []. split; [constructor|done]. }
  destruct (isspace a) eqn:Ha.
  - exists (a :: ws). split; [by constructor|]. simpl. by f_equal.
  - exists []. split; [constructor|done].
Qed.

Lemma lstrip_head s a s' : lstrip s = a :: s' → isspace a = false.
Proof.
  induction s as [|b s IH]; simpl; [done|].
  destruct (isspace b) eqn:Hb; [done|]. by intros [= <- _].
Qed.

Lemma lstrip_app_nonblank s t : lstrip s ≠ [] → lstrip (s ++ t) = lstrip s ++ t.
Proof.
  induction s as [|a s IH]; simpl; [done|].
  destruct (isspace a); [done|]. done.
Qed.

Lemma blank_reverse s : blank (reverse s) ↔ blank s.
Proof. unfold blank. by rewrite Forall_reverse. Qed.

Lemma rstrip_blank s : blank s → rstrip s = [].
Proof.
  intros H. unfold rstrip. by rewrite lstrip_blank by by apply blank_reverse.
Qed.

Lemma rstrip_app_blank s ws : blank ws → rstrip (s ++ ws) = rstrip s.
Proof.
  intros H. unfold rstrip. rewrite reverse_app, lstrip_app_blank; [done|].
  by apply blank_reverse.
Qed.

Lemma rstrip_decomp s : ∃ ws, blank ws ∧ s = rstrip s ++ ws.
Proof.
  destruct (lstrip_decomp (reverse s)) as (ws & Hws & Hs).
  exists (reverse ws). split; [by apply blank_reverse|].
  unfold rstrip. rewrite <- reverse_app, <- Hs. by rewrite reverse_involutive.
Qed.

Lemma rstrip_app_nonblank s t : rstrip t ≠ [] → rstrip (s ++ t) = s ++ rstrip t.
Proof.
  intros H. unfold rstrip in *. rewrite reverse_app, lstrip_app_nonblank.
  - by rewrite reverse_app, reverse_involutive.
  - intros E. apply H. by rewrite E.
Qed.

Lemma strip_blank s : strip s = [] ↔ blank s.
Proof.
  unfold strip. split.
  - intros H%lstrip_nil_blank. destruct (rstrip_decomp s) as (ws & Hws & Hs).
    rewrite Hs. by apply blank_app.
  - intros H. by rewrite rstrip_blank.
Qed.

Lemma strip_decomp s : ∃ ws1 ws2, blank ws1 ∧ blank ws2 ∧ s = ws1 ++ strip s ++ ws2.
Proof.
  destruct (rstrip_decomp s) as (ws2 & H2 & Hs).
  destruct (lstrip_decomp (rstrip s)) as (ws1 & H1 & Hr).
  exists ws1, ws2. split_and!; try done. unfold strip.
  rewrite Hs at 1. rewrite Hr at 1. by rewrite <- app_assoc.
Qed.

(** Whitespace around a text does not change what [strip] returns. *)
Lemma strip_pad ws1 s ws2 : blank ws1 → blank ws2 → strip (ws1 ++ s ++ ws2) = strip s.
Proof.
  intros H1 H2. unfold strip.
  rewrite app_assoc, rstrip_app_blank by done.
  destruct (decide (rstrip s = [])) as [E|E].
  - rewrite E. simpl. apply lstrip_blank.
    destruct (rstrip_decomp (ws1 ++ s)) as (ws & Hws & Hs).
    assert (blank (ws1 ++ s)) as Hb.
    { apply blank_app. split; [done|].
      destruct (rstrip_decomp s) as (w & Hw & ->). rewrite E. done. }
    rewrite rstrip_blank by done. constructor.
  - rewrite rstrip_app_nonblank by done. by apply lstrip_app_blank.
Qed.

Lemma split_go_blank tok ws : blank ws → split_go tok ws = flush tok.
Proof.
  intros H. revert tok. induction H as [|a ws Ha _ IH]; intros tok; simpl; [done|].
  rewrite Ha, IH. simpl. by rewrite app_nil_r.
Qed.

Lemma split_go_app_blank tok s ws : blank ws → split_go tok (s ++ ws) = split_go tok s.
Proof.
  intros H. revert tok. induction s as [|a s IH]; intros tok; simpl.
  - by apply split_go_blank.
  - destruct (isspace a); by rewrite IH.
Qed.

Lemma split_app_blank_l ws s : blank ws → split (ws ++ s) = split s.
Proof.
  unfold split. induction 1 as [|a ws Ha _ IH]; simpl; [done|]. by rewrite Ha.
Qed.

Lemma split_pad ws1 s ws2 : blank ws1 → blank ws2 → split (ws1 ++ s ++ ws2) = split s.
Proof.
  intros H1 H2. rewrite split_app_blank_l by done. by apply split_go_app_blank.
Qed.

Lemma split_strip s : split (strip s) = split s.
Proof.
  destruct (strip_decomp s) as (ws1 & ws2 & H1 & H2 & Hs).
  rewrite Hs at 2. by rewrite split_pad.
Qed.

Definition token (t : str) : Prop := t ≠ [] ∧ Forall (λ a, isspace a = false) t.

Lemma flush_tokens tok :
  Forall (λ a, isspace a = false) tok → Forall token (flush tok).
Proof.
  intros H. destruct tok; simpl; [constructor|].
  constructor; [by split|constructor].
Qed.

Lemma split_go_tokens tok s :
  Forall (λ a, isspace a = false) tok → Forall token (split_go tok s).
Proof.
  revert tok. induction s as [|a s IH]; intros tok Htok; simpl.
  - by apply flush_tokens.
  - destruct (isspace a) eqn:Ha.
    + apply Forall_app. split; [by apply flush_tokens|apply IH; constructor].
    + apply IH. apply Forall_app. split; [done|].
      constructor; [done|constructor].
Qed.

Lemma split_tokens s : Forall token (split s).
Proof. apply split_go_tokens. constructor. Qed.

Lemma split_go_nil tok s : split_go tok s = [] ↔ tok = [] ∧ blank s.
Proof.
  revert tok. induction s as [|a s IH]; intros tok; simpl.
  - destruct tok; simpl; split; try done; try (by intros [? _]).
    intros _. split; [done|constructor].
  - destruct (isspace a) eqn:Ha.
    + rewrite app_nil, IH. destruct tok; simpl.
      * split; [intros [_ [_ H]]|intros [_ H]].
        -- split; [done|by constructor].
        -- split; [done|]. split; [done|]. by inversion H.
      * split; [by intros [? _]|by intros [? _]].
    + rewrite IH. split.
      * intros [Htok _]. by destruct tok.
      * intros [_ H]. inversion H; congruence.
Qed.

Lemma split_nil s : split s = [] ↔ blank s.
Proof. unfold split. rewrite split_go_nil. naive_solver. Qed.

(** *** Printing integers and joining *)

Lemma pretty_N_char_digit x : isdigit (pretty_N_char x) = true.
Proof. unfold pretty_N_char. by repeat case_match. Qed.

Lemma pretty_N_go_chars x s a :
  a ∈ lit (pretty_N_go x s) → a ∈ lit s ∨ isdigit a = true.
Proof.
  revert s. induction (N.lt_wf_0 x) as [x _ IH]; intros s.
  destruct (decide (x = 0)%N) as [->|Hx]; [rewrite pretty_N_go_0; by left|].
  rewrite pretty_N_go_step by lia.
  intros [Ha|Ha]%IH; [|by right|apply N.div_lt; lia].
  unfold lit in Ha. simpl in Ha.
  apply elem_of_cons in Ha as [->|Ha]; [right|by left].
  apply pretty_N_char_digit.
Qed.

Lemma of_int_digits n a : 0 ≤ n → a ∈ of_int n → isdigit a = true.
Proof.
  unfold of_int, pretty, pretty_Z. intros Hn.
  destruct n as [|p|p]; [|clear Hn|lia].
  - unfold lit. simpl. by intros ->%list_elem_of_singleton.
  - unfold pretty, pretty_positive, pretty, pretty_N.
    rewrite decide_False by done.
    intros [Ha|Ha]%pretty_N_go_chars; [|done].
    unfold lit in Ha. simpl in Ha. by apply elem_of_nil in Ha.
Qed.

Lemma length_of_int_small n : 0 ≤ n < 10 → length (of_int n) = 1%nat.
Proof.
  intros Hn. assert (n ∈ seqZ 0 10) as Hin by (apply elem_of_seqZ; lia).
  clear Hn. revert n Hin. apply Forall_forall.
  apply (bool_decide_unpack _). by vm_compute.
Qed.

Lemma length_format_2d n : 0 ≤ n < 100 → length (format_2d n) = 2%nat.
Proof.
  intros Hn. assert (n ∈ seqZ 0 100) as Hin by (apply elem_of_seqZ; lia).
  clear Hn. revert n Hin. apply Forall_forall.
  apply (bool_decide_unpack _). by vm_compute.
Qed.

Lemma length_format_2s s :
  length (format_2s s) = Nat.max 2 (length s).
Proof. unfold format_2s. rewrite length_app, length_replicate. lia. Qed.

Lemma format_2s_single a : format_2s [a] = [a; " "%char].
Proof. done. Qed.

Lemma join_cons sep p parts :
  parts ≠ [] → join sep (p :: parts) = p ++ sep ++ join sep parts.
Proof. by destruct parts. Qed.

Lemma length_join_uniform sep parts k :
  Forall (λ p, length p = k) parts → parts ≠ [] →
  length (join sep parts) = (length parts * k + (length parts - 1) * length sep)%nat.
Proof.
  induction 1 as [|p parts Hp Hparts IH]; [done|]. intros _.
  destruct parts as [|q parts]; [simpl; lia|].
  rewrite join_cons, !length_app, IH by done. simpl. lia.
Qed.

Lemma elem_of_join sep parts a :
  a ∈ join sep parts → a ∈ sep ∨ ∃ p, p ∈ parts ∧ a ∈ p.
Proof.
  induction parts as [|p parts IH]; [by intros ?%elem_of_nil|].
  destruct parts as [|q parts].
  { intros H. right. exists p. split; [by left|done]. }
  rewrite join_cons by done.
  intros [?|[?|H]%elem_of_app]%elem_of_app.
  - right. exists p. split; [by left|done].
  - by left.
  - destruct (IH H) as [?|(p' & ? & ?)]; [by left|].
    right. exists p'. split; [by right|done].
Qed.

End PyStr.

(** * The engine and its driver *)

Module Minesweeper.

Abbreviation cell := (Z * Z)%type.

(** The instance attributes set by [__init__]. *)
Record state := State {
  rows : Z;
  cols : Z;
  mine_count : Z;
  mines : gset cell;
  revealed : gset cell;
  flags : gset cell;
  neighbor_counts : gmap cell Z
}.

Definition with_mines (st : state) (s : gset cell) : state :=
  State (rows st) (cols st) (mine_count st) s (revealed st) (flags st)
        (neighbor_counts st).

Definition with_revealed (st : state) (s : gset cell) : state :=
  State (rows st) (cols st) (mine_count st) (mines st) s (flags st)
        (neighbor_counts st).

Definition with_flags (st : state) (s : gset cell) : state :=
  State (rows st) (cols st) (mine_count st) (mines st) (revealed st) s
        (neighbor_counts st).

Definition with_neighbor_counts (st : state) (m : gmap cell Z) : state :=
  State (rows st) (cols st) (mine_count st) (mines st) (revealed st)
        (flags st) m.

(** The two [ValueError]s raised by [__init__]: the first for
    "rows and cols must be positive", the second for
    "mine_count must be between 1 and rows*cols - 1". *)
Inductive error := InvalidDimensions | InvalidMineCount.

(** [range(n)] *)
Definition range (n : Z) : list Z := seqZ 0 n.

(** [neighbors(self, row, col)]: the generator's items, in order. *)
Definition neighbors (st : state) (row col : Z) : list cell :=
  dr ← [-1; 0; 1];
  dc ← [-1; 0; 1];
  if (dr =? 0) && (dc =? 0) then []
  else
    let nr := row + dr in
    let nc := col + dc in
    if (0 <=? nr) && (nr <? rows st) && (0 <=? nc) && (nc <? cols st)
    then [(nr, nc)] else [].

(** [_place_mines], with [choices] the list returned by
    [random.sample(range(rows * cols), mine_count)]. *)
Definition place_mines (st : state) (choices : list Z) : state :=
  foldl (λ s idx,
           let row := idx `div` cols s in
           let col := idx `mod` cols s in
           with_mines s ({[ (row, col) ]} ∪ mines s))
        st choices.

(** [sum(b for ...)] over booleans: each [True] counts for one. *)
Definition sum_bools (bs : list bool) : Z :=
  foldl (λ acc (b : bool), acc + (if b then 1 else 0)) 0 bs.

(** The sum of line 34: the neighbours of a cell that are mines. *)
Definition mines_around (st : state) (row col : Z) : Z :=
  sum_bools ((λ n, bool_decide (n ∈ mines st)) <$> neighbors st row col).

(** [_compute_neighbor_counts]: the body of the inner loop, the inner
    loop over the columns of a row, and the outer loop over the rows. *)
Definition count_cell (row : Z) (st : state) (col : Z) : state :=
  if bool_decide ((row, col) ∈ mines st) then st
  else
    let count := mines_around st row col in
    with_neighbor_counts st (<[ (row, col) := count ]> (neighbor_counts st)).

Definition count_row (st : state) (row : Z) : state :=
  foldl (count_cell row) st (range (cols st)).

Definition compute_neighbor_counts (st : state) : state :=
  foldl count_row st (range (rows st)).

(** [__init__] *)
Definition new (rows cols mine_count : Z) (choices : list Z) : error + state :=
  if (rows <=? 0) || (cols <=? 0) then inl InvalidDimensions
  else if (mine_count <=? 0) || (mine_count >=? rows * cols)
  then inl InvalidMineCount
  else
    let self := State rows cols mine_count ∅ ∅ ∅ ∅ in
    let self := place_mines self choices in
    inr (compute_neighbor_counts self).

(** What [random.sample(range(n), k)] can return: [k] distinct elements
    of [range(n)]. *)
Definition is_sample (n k : Z) (choices : list Z) : Prop :=
  NoDup choices ∧ Z.of_nat (length choices) = k ∧ ∀ i, i ∈ choices → 0 ≤ i < n.

(** [neighbor_counts.get(c, 0)] *)
Definition count_at (st : state) (c : cell) : Z :=
  default 0 (neighbor_counts st !! c).

(** The [while queue:] loop of [reveal]; one unit of fuel per iteration,
    [None] when the fuel runs out before the queue is empty. *)
Fixpoint reveal_loop (fuel : nat) (st : state) (queue : list cell)
  : option state :=
  match queue with
  | [] => Some st
  | (cr, cc) :: queue =>
    match fuel with
    | O => None
    | S fuel =>
      if bool_decide ((cr, cc) ∈ revealed st) || bool_decide ((cr, cc) ∈ flags st)
      then reveal_loop fuel st queue
      else
        let st := with_revealed st ({[ (cr, cc) ]} ∪ revealed st) in
        if count_at st (cr, cc) =? 0 then
          reveal_loop fuel st
            (queue ++ filter (λ n, (n ∉ revealed st) ∧ (n ∉ flags st))
                             (neighbors st cr cc))
        else reveal_loop fuel st queue
    end
  end.

(** Iterations granted to the loop by [reveal]: eight per grid cell, and
    nine more for the starting cell. *)
Definition reveal_fuel (st : state) : nat :=
  (8 * (Z.to_nat (rows st) * Z.to_nat (cols st)) + 9)%nat.

(** [reveal]: the new state and the returned boolean. *)
Definition reveal (st : state) (row col : Z) : option (state * bool) :=
  if bool_decide ((row, col) ∈ flags st) || bool_decide ((row, col) ∈ revealed st)
  then Some (st, true)
  else if bool_decide ((row, col) ∈ mines st)
  then Some (with_revealed st ({[ (row, col) ]} ∪ revealed st), false)
  else
    match reveal_loop (reveal_fuel st) st [(row, col)] with
    | Some st' => Some (st', true)
    | None => None
    end.

(** [toggle_flag] *)
Definition toggle_flag (st : state) (row col : Z) : state :=
  if bool_decide ((row, col) ∈ revealed st) then st
  else if bool_decide ((row, col) ∈ flags st)
  then with_flags st (flags st ∖ {[ (row, col) ]})
  else with_flags st ({[ (row, col) ]} ∪ flags st).

(** [is_won] *)
Definition is_won (st : state) : bool :=
  Z.of_nat (size (revealed st)) =? rows st * cols st - mine_count st.

(** The bounds check the driver performs before calling the engine. *)
Definition in_bounds (st : state) (c : cell) : Prop :=
  0 ≤ c.1 < rows st ∧ 0 ≤ c.2 < cols st.

(** All cells of the grid, row by row. *)
Definition grid (st : state) : list cell :=
  r ← range (rows st); pair r <$> range (cols st).

Definition grid_set (st : state) : gset cell := list_to_set (grid st).

(** ** Notions used to state the properties *)

(** [d] is one of the eight cells around [c]. *)
Definition adjacent (c d : cell) : Prop :=
  d ≠ c ∧ Z.abs (d.1 - c.1) ≤ 1 ∧ Z.abs (d.2 - c.2) ≤ 1.

Global Instance adjacent_dec c d : Decision (adjacent c d).
Proof. unfold adjacent. apply _. Defined.

Global Instance in_bounds_dec st c : Decision (in_bounds st c).
Proof. unfold in_bounds. apply _. Defined.

(** The mines among the in-bounds cells around a cell. *)
Definition adjacent_mines (st : state) (c : cell) : gset cell :=
  filter (λ d, in_bounds st d ∧ adjacent c d) (mines st).

(** The cell a sampled index of the flattened grid stands for. *)
Definition cell_of_index (cols idx : Z) : cell := (idx `div` cols, idx `mod` cols).

(** States of an engine in use: built by the constructor from some
    outcome of the sampling, then driven by in-bounds calls. *)
Inductive reachable : state → Prop :=
| reachable_new rows cols mine_count choices st :
    is_sample (rows * cols) mine_count choices →
    new rows cols mine_count choices = inr st →
    reachable st
| reachable_reveal st row col st' b :
    reachable st → in_bounds st (row, col) →
    reveal st row col = Some (st', b) →
    reachable st'
| reachable_toggle_flag st row col :
    reachable st → in_bounds st (row, col) →
    reachable (toggle_flag st row col).

(** The invariant of reachable states. *)
Record wf (st : state) : Prop := {
  wf_rows : 0 < rows st;
  wf_cols : 0 < cols st;
  wf_mine_count : 0 < mine_count st < rows st * cols st;
  wf_mines_in : ∀ c, c ∈ mines st → in_bounds st c;
  wf_mines_size : Z.of_nat (size (mines st)) = mine_count st;
  wf_counts : ∀ c,
    neighbor_counts st !! c =
      if decide (in_bounds st c ∧ (c ∉ mines st))
      then Some (Z.of_nat (size (adjacent_mines st c))) else None;
  wf_revealed_in : ∀ c, c ∈ revealed st → in_bounds st c;
  wf_flags_in : ∀ c, c ∈ flags st → in_bounds st c;
  wf_disjoint : revealed st ## flags st
}.

(** Cells the loop reveals when it starts from [s] in state [st]: [s]
    itself if it is neither revealed nor flagged, and then every
    unrevealed, unflagged neighbour of a cell already reached whose
    [neighbor_counts.get(_, 0)] is zero. *)
Inductive reach_from (st : state) (s : cell) : cell → Prop :=
| reach_here :
    (s ∉ revealed st) → (s ∉ flags st) → reach_from st s s
| reach_step c d :
    reach_from st s c → count_at st c = 0 →
    d ∈ neighbors st c.1 c.2 →
    (d ∉ revealed st) → (d ∉ flags st) →
    reach_from st s d.

(** A covered cell: neither revealed nor flagged. *)
Definition covered (st : state) (c : cell) : Prop :=
  (c ∉ revealed st) ∧ (c ∉ flags st).

(** A cell whose recorded neighbour count is zero, and a numbered cell. *)
Definition zero_cell (st : state) (c : cell) : Prop :=
  neighbor_counts st !! c = Some 0.

Definition numbered_cell (st : state) (c : cell) : Prop :=
  ∃ n, neighbor_counts st !! c = Some n ∧ n ≠ 0.

(** The connected region of covered zero-count cells around [start]. *)
Inductive zero_region (st : state) (start : cell) : cell → Prop :=
| zero_region_start :
    zero_cell st start → covered st start → zero_region st start start
| zero_region_step c d :
    zero_region st start c →
    in_bounds st d → adjacent c d →
    zero_cell st d → covered st d →
    zero_region st start d.

(** The unflagged numbered cells that touch the region. *)
Definition border (st : state) (start d : cell) : Prop :=
  numbered_cell st d ∧ (d ∉ flags st) ∧
  ∃ c, zero_region st start c ∧ in_bounds st d ∧ adjacent c d.

(** Bound on the iterations the loop still has to make. *)
Definition potential (st : state) (queue : list cell) : nat :=
  (length queue +
   8 * size ((grid_set st ∪ list_to_set queue) ∖ revealed st))%nat.

(** [st'] is [st] up to its revealed set, which may have grown. *)
Definition same_board (st st' : state) : Prop :=
  rows st' = rows st ∧ cols st' = cols st ∧ mine_count st' = mine_count st ∧
  mines st' = mines st ∧ flags st' = flags st ∧
  neighbor_counts st' = neighbor_counts st ∧
  revealed st ⊆ revealed st'.

(** [st'] is [st] up to its neighbour counts. *)
Definition same_mines (st st' : state) : Prop :=
  rows st' = rows st ∧ cols st' = cols st ∧ mine_count st' = mine_count st ∧
  mines st' = mines st ∧ revealed st' = revealed st ∧ flags st' = flags st.

(** ** Rendering (src/minesweeper.py, [display]) *)

(** What [display] shows for one cell: the value of [symbol] after the
    [if]/[elif] chain of lines 83 to 91. *)
Definition symbol (st : state) (show_mines : bool) (c : cell) : PyStr.str :=
  if show_mines && bool_decide (c ∈ mines st) then PyStr.lit "*"
  else if bool_decide (c ∈ revealed st) then
    let count := count_at st c in
    if 0 <? count then PyStr.of_int count else PyStr.lit " "
  else if bool_decide (c ∈ flags st) then PyStr.lit "F"
  else PyStr.lit ".".

Definition display_header (st : state) : PyStr.str :=
  PyStr.lit "   " ++ PyStr.join (PyStr.lit " ") (PyStr.format_2d <$> range (cols st)).

Definition display_row (st : state) (show_mines : bool) (r : Z) : PyStr.str :=
  (PyStr.format_2d r ++ PyStr.lit " ") ++
  mjoin ((λ c, PyStr.format_2s (symbol st show_mines (r, c))) <$> range (cols st)).

(** The list [lines] of [display], and the returned text. *)
Definition display_lines (st : state) (show_mines : bool) : list PyStr.str :=
  display_header st :: (display_row st show_mines <$> range (rows st)).

Definition newline : PyStr.str := ["010"%char].

Definition display (st : state) (show_mines : bool) : PyStr.str :=
  PyStr.join newline (display_lines st show_mines).

(** ** The driver (src/minesweeper.py, [parse_dimensions] and [main]) *)

(** The two [ValueError]s of [parse_dimensions]: the one raised on line
    102 and the one [int] raises on line 103. *)
Inductive parse_error := WrongFieldCount | NotAnInteger.

(** What the driver writes: one constructor per [print] of a fixed
    message (the line of the [print] is given), the two prompts of
    [input], and the boards. *)
Inductive message :=
| Welcome                        (* line 108 *)
| InputError (e : parse_error)   (* line 115 *)
| ParameterError (e : error)     (* line 121 *)
| Quitting                       (* line 130 *)
| BadFormat                      (* line 134 *)
| UnknownAction                  (* line 138 *)
| NotNumbers                     (* line 144 *)
| OutOfRange                     (* line 147 *)
| Boom                           (* line 156 *)
| Congratulations.               (* line 160 *)

Inductive output :=
| Say (m : message)
| AskDimensions                  (* the prompt of line 111 *)
| AskMove                        (* the prompt of line 126 *)
| ShowBoard (text : PyStr.str).  (* lines 125, 155 and 159 *)

(** How [main] ends: the two early returns, the three [break]s, the
    [EOFError] of [input] when the input is exhausted; [Stuck] stands
    for a [reveal] that runs out of fuel, which never happens. *)
Inductive outcome :=
| BadInput | BadParameters | Quit | Lost | Won | EndOfInput | Stuck.

(** One iteration of the loop after the line has been read: go on with
    a state, or leave the loop. *)
Inductive action :=
| Continue (out : list output) (st : state)
| Stop (out : list output) (res : outcome) (st : state).

Section Driver.

(** Python's [int] on a token. *)
Variable int : PyStr.str → option Z.

(** [parse_dimensions] *)
Definition parse_dimensions (text : PyStr.str) (default : Z * Z * Z)
  : parse_error + Z * Z * Z :=
  if bool_decide (PyStr.strip text = []) then inr default
  else
    match PyStr.split (PyStr.strip text) with
    | [a; b; c] =>
      match int a, int b, int c with
      | Some rows, Some cols, Some mines => inr (rows, cols, mines)
      | _, _, _ => inl NotAnInteger
      end
    | _ => inl WrongFieldCount
    end.

(** The printed board: [print("\n" + game.display(...))]. *)
Definition board (st : state) (show_mines : bool) : output :=
  ShowBoard (newline ++ display st show_mines).

(** Lines 127 to 161: the body of the loop from the test of the command
    on. *)
Definition turn (st : state) (line : PyStr.str) : action :=
  let command := PyStr.lower (PyStr.strip line) in
  if bool_decide (command = []) then Continue [] st
  else if bool_decide (command = PyStr.lit "q") then Stop [Say Quitting] Quit st
  else
    match PyStr.split command with
    | [action; row_text; col_text] =>
      if negb (bool_decide (action = PyStr.lit "r") ||
               bool_decide (action = PyStr.lit "f"))
      then Continue [Say UnknownAction] st
      else
        match int row_text, int col_text with
        | Some row, Some col =>
          if negb ((0 <=? row) && (row <? rows st) &&
                   (0 <=? col) && (col <? cols st))
          then Continue [Say OutOfRange] st
          else if bool_decide (action = PyStr.lit "f")
          then Continue [] (toggle_flag st row col)
          else
            match reveal st row col with
            | Some (st', safe) =>
              if negb safe then Stop [board st' true; Say Boom] Lost st'
              else if is_won st'
              then Stop [board st' true; Say Congratulations] Won st'
              else Continue [] st'
            | None => Stop [] Stuck st
            end
        | _, _ => Continue [Say NotNumbers] st
        end
    | _ => Continue [Say BadFormat] st
    end.

(** The [while True] loop of [main] over the lines still to be read. *)
Fixpoint play (st : state) (lines : list PyStr.str)
  : list output * outcome * state :=
  match lines with
  | [] => ([board st false; AskMove], EndOfInput, st)
  | line :: lines =>
    match turn st line with
    | Continue out st' =>
      let '(outs, res, fin) := play st' lines in
      (board st false :: AskMove :: out ++ outs, res, fin)
    | Stop out res st' => (board st false :: AskMove :: out, res, st')
    end
  end.

(** [main]; [sample n k] is what [random.sample(range(n), k)] returns. *)
Definition main (sample : Z → Z → list Z) (lines : list PyStr.str)
  : list output * outcome * option state :=
  match lines with
  | [] => ([Say Welcome; AskDimensions], EndOfInput, None)
  | first :: lines =>
    match parse_dimensions first (9, 9, 10) with
    | inl e => ([Say Welcome; AskDimensions; Say (InputError e)], BadInput, None)
    | inr (rows, cols, mines) =>
      match new rows cols mines (sample (rows * cols) mines) with
      | inl e =>
        ([Say Welcome; AskDimensions; Say (ParameterError e)],
         BadParameters, None)
      | inr game =>
        let '(outs, res, fin) := play game lines in
        (Say Welcome :: AskDimensions :: outs, res, Some fin)
      end
    end
  end.

End Driver.

(** A sampler that behaves as [random.sample] does on valid arguments. *)
Definition valid_sampler (sample : Z → Z → list Z) : Prop :=
  ∀ n k, 0 ≤ k ≤ n → is_sample n k (sample n k).

(** A board that hides the mines. *)
Definition hides_mines (o : output) : Prop :=
  match o with ShowBoard text => "*"%char ∉ text | _ => True end.

(** What a [reveal] of cell [a] adds in state [st]: the cell itself when
    it is a covered mine, the cells of its flood fill when it is safe. *)
Definition effect (st : state) (a x : cell) : Prop :=
  (a ∈ mines st ∧ covered st a ∧ x = a) ∨ ((a ∉ mines st) ∧ reach_from st a x).

(** A game in progress: a reachable state in which no mine has been
    revealed and that is not won. *)
Definition playing (st : state) : Prop :=
  reachable st ∧ revealed st ## mines st ∧ is_won st = false.

(** The outputs that come before the final board of a won or lost game
    (all of them when the game ends otherwise). *)
Definition before_end (res : outcome) (outs : list output) : list output :=
  match res with
  | Won | Lost => take (length outs - 2) outs
  | _ => outs
  end.

(** Two instances used as examples: an [int] that reads plain decimal
    digits, and the sampler that picks the first indices. *)
Definition int_digits (s : PyStr.str) : option Z :=
  if bool_decide (s ≠ []) && forallb PyStr.isdigit s
  then Some (foldl (λ acc a, 10 * acc + (Z.of_nat (nat_of_ascii a) - 48)) 0 s)
  else None.

Definition first_indices (n k : Z) : list Z := seqZ 0 k.

(** ** Boards used as examples *)

(** Scenario A: the 1x2 board with its mine at (0,0), as built by
    [new 1 2 1 [0]]. *)
Definition board_1x2 : state :=
  State 1 2 1 {[ (0, 0) ]} ∅ ∅ {[ (0, 1) := 1 ]}.

(** The same board after the mine has been revealed. *)
Definition board_1x2_hit : state :=
  State 1 2 1 {[ (0, 0) ]} {[ (0, 0) ]} ∅ {[ (0, 1) := 1 ]}.

(** The same board after the safe cell has been revealed. *)
Definition board_1x2_won : state :=
  State 1 2 1 {[ (0, 0) ]} {[ (0, 1) ]} ∅ {[ (0, 1) := 1 ]}.

(** Scenario C: the 3x1 board with its mine at (2,0). *)
Definition board_3x1 : state :=
  State 3 1 1 {[ (2, 0) ]} ∅ ∅ {[ (0, 0) := 0; (1, 0) := 1 ]}.

(** The 4x1 board with its mine at (3,0), as built by [new 4 1 1 [3]];
    then with a flag on (1,0); then with (2,0) revealed as well. *)
Definition board_4x1 : state :=
  State 4 1 1 {[ (3, 0) ]} ∅ ∅ {[ (0, 0) := 0; (1, 0) := 0; (2, 0) := 1 ]}.

Definition board_4x1_flag : state :=
  State 4 1 1 {[ (3, 0) ]} ∅ {[ (1, 0) ]}
        {[ (0, 0) := 0; (1, 0) := 0; (2, 0) := 1 ]}.

Definition board_4x1_flagged : state :=
  State 4 1 1 {[ (3, 0) ]} {[ (2, 0) ]} {[ (1, 0) ]}
        {[ (0, 0) := 0; (1, 0) := 0; (2, 0) := 1 ]}.

(** * Properties *)

(** ** Neighbours and the grid *)

Lemma elem_of_deltas (x : Z) : x ∈ [-1; 0; 1] ↔ -1 ≤ x ≤ 1.
Proof. rewrite !elem_of_cons, elem_of_nil. lia. Qed.

Lemma elem_of_neighbors st row col d :
  d ∈ neighbors st row col ↔ in_bounds st d ∧ adjacent (row, col) d.
Proof.
  unfold neighbors. rewrite list_elem_of_bind.
  setoid_rewrite list_elem_of_bind. setoid_rewrite elem_of_deltas.
  unfold in_bounds, adjacent. split.
  - intros (dr & (dc & Hd & Hdc) & Hdr).
    destruct ((dr =? 0) && (dc =? 0)) eqn:E1; [by apply elem_of_nil in Hd|].
    match type of Hd with context [if ?b then _ else _] =>
      destruct b eqn:E2; [|by apply elem_of_nil in Hd] end.
    apply list_elem_of_singleton in Hd as ->. simpl.
    apply andb_false_iff in E1. rewrite !Z.eqb_neq in E1.
    rewrite !andb_true_iff, !Z.leb_le, !Z.ltb_lt in E2.
    split; [lia|]. split; [intros [= ? ?]; lia | lia].
  - destruct d as [nr nc]. simpl. intros [Hb [Hne Ha]].
    assert (nr ≠ row ∨ nc ≠ col) as Hne' by
      (destruct (decide (nr = row)); [right; congruence | by left]).
    exists (nr - row). split; [|lia]. exists (nc - col). split; [|lia].
    assert (((nr - row =? 0) && (nc - col =? 0)) = false) as ->
      by (apply andb_false_iff; rewrite !Z.eqb_neq; lia).
    replace (row + (nr - row)) with nr by lia.
    replace (col + (nc - col)) with nc by lia.
    assert ((0 <=? nr) && (nr <? rows st) && (0 <=? nc) && (nc <? cols st) = true)
      as -> by (rewrite !andb_true_iff, !Z.leb_le, !Z.ltb_lt; lia).
    by apply list_elem_of_singleton.
Qed.

Lemma elem_of_neighbor_item (a b : bool) (x y : cell) :
  y ∈ (if a then [] else if b then [x] else []) → y = x.
Proof.
  destruct a, b; rewrite ?elem_of_nil, ?list_elem_of_singleton; tauto.
Qed.

Lemma NoDup_deltas : NoDup [-1; 0; 1].
Proof.
  repeat (constructor; [rewrite ?elem_of_cons, elem_of_nil; lia|]).
  constructor.
Qed.

Lemma NoDup_neighbors st row col : NoDup (neighbors st row col).
Proof.
  unfold neighbors. apply NoDup_bind; [| |apply NoDup_deltas].
  - intros dr1 dr2 y _ _ (dc1 & H1 & _)%list_elem_of_bind
      (dc2 & H2 & _)%list_elem_of_bind.
    apply elem_of_neighbor_item in H1, H2. simplify_eq. lia.
  - intros dr _. apply NoDup_bind; [| |apply NoDup_deltas].
    + intros dc1 dc2 y _ _ H1 H2.
      apply elem_of_neighbor_item in H1, H2. simplify_eq. lia.
    + intros dc _. repeat case_match; auto using NoDup_nil_2, NoDup_singleton.
Qed.

Lemma length_neighbors st row col : (length (neighbors st row col) ≤ 8)%nat.
Proof.
  unfold neighbors. cbn. rewrite !length_app.
  repeat match goal with
         | |- context [length (if ?b then _ else _)] => destruct b
         end; simpl; lia.
Qed.

Lemma neighbors_in_bounds st row col d :
  d ∈ neighbors st row col → in_bounds st d.
Proof. by intros [? _]%elem_of_neighbors. Qed.

Lemma elem_of_range n i : i ∈ range n ↔ 0 ≤ i < n.
Proof. unfold range. rewrite elem_of_seqZ. lia. Qed.

Lemma elem_of_grid st c : c ∈ grid st ↔ in_bounds st c.
Proof.
  unfold grid, in_bounds. rewrite list_elem_of_bind. split.
  - intros (r & (x & -> & Hx)%list_elem_of_fmap & Hr).
    apply elem_of_range in Hx, Hr. done.
  - destruct c as [r x]. simpl. intros [Hr Hx]. exists r.
    rewrite elem_of_range. split; [|done].
    apply list_elem_of_fmap. exists x. by rewrite elem_of_range.
Qed.

Lemma NoDup_grid st : NoDup (grid st).
Proof.
  unfold grid, range. apply NoDup_bind; [| |apply NoDup_seqZ].
  - intros r1 r2 y _ _ (x1 & -> & _)%list_elem_of_fmap
      (x2 & [= -> _] & _)%list_elem_of_fmap. done.
  - intros r _. apply NoDup_fmap_2; [|apply NoDup_seqZ].
    by intros x1 x2 [= ->].
Qed.

Lemma length_pairs {A B} (l : list A) (k : list B) :
  length (x ← l; pair x <$> k) = (length l * length k)%nat.
Proof.
  induction l as [|x l IH]; [done|].
  rewrite bind_cons, length_app, length_fmap, IH. simpl. lia.
Qed.

Lemma length_grid st :
  length (grid st) = (Z.to_nat (rows st) * Z.to_nat (cols st))%nat.
Proof. unfold grid, range. by rewrite length_pairs, !length_seqZ. Qed.

Lemma elem_of_grid_set st c : c ∈ grid_set st ↔ in_bounds st c.
Proof. unfold grid_set. by rewrite elem_of_list_to_set, elem_of_grid. Qed.

Lemma size_grid_set st :
  size (grid_set st) = (Z.to_nat (rows st) * Z.to_nat (cols st))%nat.
Proof.
  unfold grid_set. rewrite size_list_to_set by apply NoDup_grid.
  apply length_grid.
Qed.

(** ** The flood-fill loop *)

Lemma reveal_loop_nil fuel st : reveal_loop fuel st [] = Some st.
Proof. by destruct fuel. Qed.

Lemma reveal_loop_cons fuel st c queue :
  reveal_loop (S fuel) st (c :: queue) =
    if bool_decide (c ∈ revealed st) || bool_decide (c ∈ flags st)
    then reveal_loop fuel st queue
    else
      let st1 := with_revealed st ({[ c ]} ∪ revealed st) in
      if count_at st c =? 0 then
        reveal_loop fuel st1
          (queue ++ filter (λ n, (n ∉ revealed st1) ∧ (n ∉ flags st))
                           (neighbors st c.1 c.2))
      else reveal_loop fuel st1 queue.
Proof. by destruct c. Qed.

Lemma same_board_refl st : same_board st st.
Proof. by repeat split. Qed.

Lemma same_board_trans st1 st2 st3 :
  same_board st1 st2 → same_board st2 st3 → same_board st1 st3.
Proof.
  unfold same_board. intros (?&?&?&?&?&?&?) (?&?&?&?&?&?&?).
  repeat split; try congruence. set_solver.
Qed.

Lemma same_board_with_revealed st c :
  same_board st (with_revealed st ({[ c ]} ∪ revealed st)).
Proof. repeat split; simpl. set_solver. Qed.

Lemma reveal_loop_same_board fuel st queue st' :
  reveal_loop fuel st queue = Some st' → same_board st st'.
Proof.
  revert st queue. induction fuel as [|fuel IH]; intros st [|c queue] H;
    try (rewrite reveal_loop_nil in H; injection H as <-; apply same_board_refl).
  { by destruct c. }
  rewrite reveal_loop_cons in H.
  destruct (bool_decide _ || bool_decide _); [by eapply IH|].
  simpl in H. eapply same_board_trans; [apply (same_board_with_revealed st c)|].
  destruct (count_at st c =? 0); by eapply IH.
Qed.

(** *** Termination *)

Lemma potential_skip st c queue :
  (potential st queue < potential st (c :: queue))%nat.
Proof.
  unfold potential. simpl length.
  assert ((grid_set st ∪ list_to_set queue) ∖ revealed st
          ⊆ (grid_set st ∪ list_to_set (c :: queue)) ∖ revealed st) as Hsub
    by set_solver.
  apply subseteq_size in Hsub. lia.
Qed.

Lemma potential_reveal st c queue new :
  c ∉ revealed st →
  (∀ n, n ∈ new → in_bounds st n) →
  (length new ≤ 8)%nat →
  (potential (with_revealed st ({[ c ]} ∪ revealed st)) (queue ++ new)
   < potential st (c :: queue))%nat.
Proof.
  intros Hc Hin Hlen. unfold potential. rewrite length_app. simpl length.
  change (grid_set (with_revealed st ({[ c ]} ∪ revealed st)))
    with (grid_set st). simpl revealed.
  set (X := (grid_set st ∪ list_to_set (c :: queue)) ∖ revealed st).
  assert ((grid_set st ∪ list_to_set (queue ++ new)) ∖ ({[ c ]} ∪ revealed st)
          ⊆ X ∖ {[ c ]}) as Hsub.
  { intros x. unfold X. rewrite !elem_of_difference, !elem_of_union,
      !elem_of_list_to_set, elem_of_app, elem_of_cons, elem_of_grid_set.
    set_solver. }
  apply subseteq_size in Hsub.
  assert (({[ c ]} : gset cell) ⊆ X) as Hc' by (unfold X; set_solver).
  rewrite (size_difference X {[ c ]} Hc'), size_singleton in Hsub.
  apply subseteq_size in Hc'. rewrite size_singleton in Hc'. lia.
Qed.

Lemma reveal_loop_terminates fuel st queue :
  (potential st queue ≤ fuel)%nat → is_Some (reveal_loop fuel st queue).
Proof.
  revert st queue. induction fuel as [|fuel IH]; intros st [|c queue] Hpot;
    try (rewrite reveal_loop_nil; by eexists).
  { unfold potential in Hpot. simpl in Hpot. lia. }
  rewrite reveal_loop_cons.
  destruct (bool_decide _ || bool_decide _) eqn:E.
  { apply IH. pose proof (potential_skip st c queue). lia. }
  apply orb_false_iff in E as [Hr _]. apply bool_decide_eq_false in Hr.
  simpl. destruct (count_at st c =? 0).
  - apply IH. apply Nat.lt_succ_r. eapply Nat.lt_le_trans; [|exact Hpot].
    apply potential_reveal; [done| |].
    + intros n [_ Hn]%list_elem_of_filter. by eapply neighbors_in_bounds.
    + etrans; [apply length_filter|apply length_neighbors].
  - apply IH. apply Nat.lt_succ_r. eapply Nat.lt_le_trans; [|exact Hpot].
    rewrite <- (app_nil_r queue) at 1.
    apply potential_reveal; [done| |simpl; lia].
    by intros ? ?%elem_of_nil.
Qed.

Lemma potential_start st start :
  (potential st [start] ≤ reveal_fuel st)%nat.
Proof.
  unfold potential, reveal_fuel. simpl length.
  assert ((grid_set st ∪ list_to_set [start]) ∖ revealed st
          ⊆ grid_set st ∪ {[ start ]}) as Hsub by set_solver.
  apply subseteq_size in Hsub.
  rewrite (size_union_alt (grid_set st) {[ start ]}), size_grid_set in Hsub.
  assert (({[ start ]} : gset cell) ∖ grid_set st ⊆ {[ start ]}) as H1
    by set_solver.
  apply subseteq_size in H1. rewrite size_singleton in H1. lia.
Qed.

Lemma potential_start_in_bounds st start :
  in_bounds st start →
  (potential st [start] ≤ 8 * (Z.to_nat (rows st) * Z.to_nat (cols st)) + 1)%nat.
Proof.
  intros Hin. unfold potential. simpl length.
  assert ((grid_set st ∪ list_to_set [start]) ∖ revealed st
          ⊆ grid_set st) as Hsub.
  { intros x. rewrite elem_of_difference, elem_of_union, elem_of_list_to_set,
      list_elem_of_singleton, !elem_of_grid_set. naive_solver. }
  apply subseteq_size in Hsub. rewrite size_grid_set in Hsub. lia.
Qed.

(** *** What the loop reveals *)

Lemma reach_from_source st s d :
  reach_from st s d → (s ∉ revealed st) ∧ (s ∉ flags st).
Proof. induction 1; auto. Qed.

Lemma reach_from_target st s d :
  reach_from st s d → (d ∉ revealed st) ∧ (d ∉ flags st).
Proof. destruct 1; auto. Qed.

Lemma reach_from_trans st a b d :
  reach_from st a b → reach_from st b d → reach_from st a d.
Proof.
  intros Hab Hbd. induction Hbd as [|x y _ IH]; [done|].
  by eapply reach_step.
Qed.

Lemma reach_from_weaken st c s d :
  reach_from (with_revealed st ({[ c ]} ∪ revealed st)) s d →
  reach_from st s d.
Proof.
  induction 1 as [Hr Hf|x y _ IH Hz Hn Hr Hf]; simpl in *.
  - apply reach_here; set_solver.
  - eapply reach_step; [exact IH|done|done|set_solver|done].
Qed.

Lemma reach_from_split st c s d :
  let st1 := with_revealed st ({[ c ]} ∪ revealed st) in
  reach_from st s d →
  d = c ∨ reach_from st1 s d ∨
  (count_at st c = 0 ∧
   ∃ n, n ∈ neighbors st c.1 c.2 ∧ (n ∉ revealed st1) ∧ (n ∉ flags st) ∧
        reach_from st1 n d).
Proof.
  intros st1.
  induction 1 as [Hr Hf|x y _ IH Hz Hn Hr Hf].
  - destruct (decide (s = c)) as [->|Hne]; [by left|].
    right; left. apply reach_here; simpl; set_solver.
  - destruct (decide (y = c)) as [->|Hne]; [by left|]. right.
    assert (y ∉ revealed st1) as Hr1 by (simpl; set_solver).
    destruct IH as [->|[IH|(Hc & n & Hcn & Hnr & Hnf & IH)]].
    + right. split; [done|]. exists y. repeat split; try done.
      by apply reach_here.
    + left. by eapply reach_step.
    + right. split; [done|]. exists n. repeat split; try done.
      by eapply reach_step.
Qed.

Lemma reveal_loop_fill fuel st queue st' :
  reveal_loop fuel st queue = Some st' →
  ∀ d, d ∈ revealed st' ↔
       d ∈ revealed st ∨ ∃ s, s ∈ queue ∧ reach_from st s d.
Proof.
  revert st queue.
  induction fuel as [|fuel IH]; intros st [|c queue] H d;
    try (rewrite reveal_loop_nil in H; injection H as <-;
         split; [by left|intros [?|(? & []%elem_of_nil & _)]; done]).
  { by destruct c. }
  rewrite reveal_loop_cons in H.
  destruct (bool_decide _ || bool_decide _) eqn:E.
  { rewrite (IH _ _ H). apply orb_true_iff in E.
    rewrite !bool_decide_eq_true in E. split.
    - intros [?|(s & Hs & Hd)]; [by left|].
      right. exists s. split; [by right|done].
    - intros [?|(s & Hs & Hd)]; [by left|].
      apply elem_of_cons in Hs as [->|Hs].
      + apply reach_from_source in Hd. tauto.
      + right. by exists s. }
  apply orb_false_iff in E as [Hr Hf].
  apply bool_decide_eq_false in Hr, Hf. simpl in H.
  set (st1 := with_revealed st ({[ c ]} ∪ revealed st)) in *.
  assert (reach_from st c c) as Hcc by by apply reach_here.
  destruct (count_at st c =? 0) eqn:Hz.
  - apply Z.eqb_eq in Hz. rewrite (IH _ _ H). simpl. split.
    + intros [[->%elem_of_singleton|?]%elem_of_union|(s & Hs & Hd)].
      * right. exists c. split; [by left|done].
      * by left.
      * right. apply elem_of_app in Hs as [Hs|Hs].
        -- exists s. split; [by right|]. by eapply reach_from_weaken.
        -- exists c. split; [by left|].
           apply list_elem_of_filter in Hs as [[Hsr Hsf] Hs].
           eapply reach_from_trans; [|by eapply reach_from_weaken].
           eapply reach_step; [exact Hcc|done|done| |done].
           simpl in Hsr. set_solver.
    + intros [?|(s & Hs & Hd)]; [left; set_solver|].
      apply (reach_from_split st c) in Hd
        as [->|[Hd|(_ & n & Hcn & Hnr & Hnf & Hd)]].
      * left. set_solver.
      * right. exists s. split; [|done].
        apply elem_of_cons in Hs as [->|Hs]; [|set_solver].
        apply reach_from_source in Hd as [Hd _]. simpl in Hd. set_solver.
      * right. exists n. split; [|done].
        apply elem_of_app. right. by apply list_elem_of_filter.
  - apply Z.eqb_neq in Hz. rewrite (IH _ _ H). simpl. split.
    + intros [[->%elem_of_singleton|?]%elem_of_union|(s & Hs & Hd)].
      * right. exists c. split; [by left|done].
      * by left.
      * right. exists s. split; [by right|]. by eapply reach_from_weaken.
    + intros [?|(s & Hs & Hd)]; [left; set_solver|].
      apply (reach_from_split st c) in Hd as [->|[Hd|(? & _)]]; [| |done].
      * left. set_solver.
      * right. exists s. split; [|done].
        apply elem_of_cons in Hs as [->|Hs]; [|done].
        apply reach_from_source in Hd as [Hd _]. simpl in Hd. set_solver.
Qed.

(** ** Construction *)

Lemma place_mines_spec st choices :
  let st' := place_mines st choices in
  rows st' = rows st ∧ cols st' = cols st ∧ mine_count st' = mine_count st ∧
  revealed st' = revealed st ∧ flags st' = flags st ∧
  neighbor_counts st' = neighbor_counts st ∧
  mines st' = list_to_set (cell_of_index (cols st) <$> choices) ∪ mines st.
Proof.
  unfold place_mines. revert st.
  induction choices as [|idx choices IH]; intros st; simpl.
  { repeat split. set_solver. }
  destruct (IH (with_mines st ({[ (idx `div` cols st, idx `mod` cols st) ]}
                               ∪ mines st)))
    as (-> & -> & -> & -> & -> & -> & ->).
  repeat split. simpl. unfold cell_of_index. set_solver.
Qed.

Lemma cell_of_index_inj cols i j :
  0 < cols → cell_of_index cols i = cell_of_index cols j → i = j.
Proof.
  unfold cell_of_index. intros Hc [= Hd Hm].
  rewrite (Z.div_mod i cols), (Z.div_mod j cols) by lia. congruence.
Qed.

Lemma cell_of_index_bounds rows cols i :
  0 < cols → 0 ≤ i < rows * cols →
  0 ≤ (cell_of_index cols i).1 < rows ∧ 0 ≤ (cell_of_index cols i).2 < cols.
Proof.
  intros Hc Hi. unfold cell_of_index. simpl.
  pose proof (Z.mod_pos_bound i cols Hc).
  split; [|done]. split; [apply Z.div_pos; lia|].
  apply Z.div_lt_upper_bound; lia.
Qed.

Lemma sum_bools_acc (bs : list bool) (a : Z) :
  foldl (λ acc (b : bool), acc + (if b then 1 else 0)) a bs = a + sum_bools bs.
Proof.
  unfold sum_bools. revert a. induction bs as [|b bs IH]; intros a; simpl.
  { lia. }
  rewrite (IH (a + _)), (IH (0 + _)). lia.
Qed.

Lemma sum_bools_filter {A} (P : A → Prop) `{!∀ x, Decision (P x)} (l : list A) :
  sum_bools ((λ x, bool_decide (P x)) <$> l) = Z.of_nat (length (filter P l)).
Proof.
  induction l as [|x l IH]; [done|].
  rewrite fmap_cons. unfold sum_bools. simpl foldl. rewrite sum_bools_acc, IH.
  rewrite filter_cons. case_bool_decide; case_decide; try done; simpl; lia.
Qed.

Lemma mines_around_spec st row col :
  mines_around st row col = Z.of_nat (size (adjacent_mines st (row, col))).
Proof.
  unfold mines_around, adjacent_mines.
  rewrite (sum_bools_filter (λ n, n ∈ mines st)). f_equal.
  rewrite <- (size_list_to_set (C:=gset cell))
    by apply NoDup_filter, NoDup_neighbors.
  f_equal. apply set_eq. intros x.
  rewrite elem_of_list_to_set, list_elem_of_filter, elem_of_filter,
    elem_of_neighbors.
  naive_solver.
Qed.

Lemma mines_around_ext st st' row col :
  rows st' = rows st → cols st' = cols st → mines st' = mines st →
  mines_around st' row col = mines_around st row col.
Proof.
  intros Hr Hc Hm. unfold mines_around, neighbors. by rewrite Hr, Hc, Hm.
Qed.

Lemma same_mines_refl st : same_mines st st.
Proof. by repeat split. Qed.

Lemma same_mines_trans st1 st2 st3 :
  same_mines st1 st2 → same_mines st2 st3 → same_mines st1 st3.
Proof.
  unfold same_mines. intros (?&?&?&?&?&?) (?&?&?&?&?&?).
  repeat split; congruence.
Qed.

Lemma count_cell_same_mines row st col : same_mines st (count_cell row st col).
Proof. unfold count_cell. by case_bool_decide. Qed.

Lemma foldl_count_cell row cs st :
  let st' := foldl (count_cell row) st cs in
  same_mines st st' ∧
  ∀ c, neighbor_counts st' !! c =
       if decide (c.1 = row ∧ c.2 ∈ cs ∧ (c ∉ mines st))
       then Some (mines_around st c.1 c.2) else neighbor_counts st !! c.
Proof.
  revert st. induction cs as [|col cs IH]; intros st; cbn [foldl].
  { split; [apply same_mines_refl|]. intros c.
    case_decide as H; [|done]. destruct H as (_ & []%elem_of_nil & _). }
  destruct (IH (count_cell row st col)) as [Hsame Hlook].
  pose proof (count_cell_same_mines row st col) as Hs1.
  split; [by eapply same_mines_trans|].
  intros [r x]. rewrite Hlook. destruct Hs1 as (Hr & Hc & _ & Hm & _).
  rewrite Hm, (mines_around_ext st) by done. simpl.
  case_decide as H1; case_decide as H2; try done.
  - destruct H2. set_solver.
  - unfold count_cell. case_bool_decide as Hmine; [set_solver|]. simpl.
    destruct H2 as (-> & Hx & Hnm).
    assert (x = col) as -> by set_solver.
    by rewrite lookup_insert_eq.
  - unfold count_cell. case_bool_decide as Hmine; [done|]. simpl.
    apply lookup_insert_ne. intros [= -> ->]. destruct H2. set_solver.
Qed.

Lemma foldl_count_row rs st :
  let st' := foldl count_row st rs in
  same_mines st st' ∧
  ∀ c, neighbor_counts st' !! c =
       if decide (c.1 ∈ rs ∧ 0 ≤ c.2 < cols st ∧ (c ∉ mines st))
       then Some (mines_around st c.1 c.2) else neighbor_counts st !! c.
Proof.
  revert st. induction rs as [|row rs IH]; intros st; cbn [foldl].
  { split; [apply same_mines_refl|]. intros c.
    case_decide as H; [|done]. destruct H as ([]%elem_of_nil & _). }
  destruct (IH (count_row st row)) as [Hsame Hlook].
  destruct (foldl_count_cell row (range (cols st)) st) as [Hs1 Hl1].
  fold (count_row st row) in Hs1, Hl1.
  split; [by eapply same_mines_trans|].
  intros c. rewrite Hlook, Hl1. destruct Hs1 as (Hr & Hc & _ & Hm & _).
  rewrite Hm, Hc, (mines_around_ext st) by done.
  repeat case_decide; try done; exfalso;
    rewrite ?elem_of_range, ?elem_of_cons in *; naive_solver.
Qed.

Lemma compute_neighbor_counts_spec st :
  let st' := compute_neighbor_counts st in
  same_mines st st' ∧
  ∀ c, neighbor_counts st' !! c =
       if decide (in_bounds st c ∧ (c ∉ mines st))
       then Some (mines_around st c.1 c.2) else neighbor_counts st !! c.
Proof.
  destruct (foldl_count_row (range (rows st)) st) as [Hsame Hlook].
  split; [done|]. intros c. unfold compute_neighbor_counts. rewrite Hlook.
  unfold in_bounds.
  repeat case_decide; try done; exfalso; rewrite ?elem_of_range in *;
    naive_solver.
Qed.

Lemma in_bounds_ext st st' c :
  rows st' = rows st → cols st' = cols st → in_bounds st' c ↔ in_bounds st c.
Proof. unfold in_bounds. by intros -> ->. Qed.

Lemma adjacent_mines_ext st st' c :
  rows st' = rows st → cols st' = cols st → mines st' = mines st →
  adjacent_mines st' c = adjacent_mines st c.
Proof.
  intros Hr Hc Hm. unfold adjacent_mines. rewrite Hm. apply set_eq. intros d.
  by rewrite !elem_of_filter, (in_bounds_ext st st' d).
Qed.

Lemma mines_around_le st row col : 0 ≤ mines_around st row col ≤ 8.
Proof.
  unfold mines_around. rewrite (sum_bools_filter (λ n, n ∈ mines st)).
  pose proof (length_filter (λ n, n ∈ mines st) (neighbors st row col)).
  pose proof (length_neighbors st row col). lia.
Qed.

Lemma adjacent_mines_le st c : (size (adjacent_mines st c) ≤ 8)%nat.
Proof.
  destruct c as [row col].
  pose proof (mines_around_le st row col) as H.
  rewrite mines_around_spec in H. lia.
Qed.

Lemma sample_cells rows0 cols0 m choices :
  0 < cols0 → is_sample (rows0 * cols0) m choices →
  NoDup (cell_of_index cols0 <$> choices) ∧
  ∀ c, c ∈ cell_of_index cols0 <$> choices →
       0 ≤ c.1 < rows0 ∧ 0 ≤ c.2 < cols0.
Proof.
  intros Hc (Hnd & _ & Hrange). split.
  - apply NoDup_fmap_2_strong; [|done].
    intros i j _ _. by apply cell_of_index_inj.
  - intros c (i & -> & Hi)%list_elem_of_fmap.
    apply cell_of_index_bounds; auto.
Qed.

Lemma new_inr rows0 cols0 m choices st :
  new rows0 cols0 m choices = inr st →
  0 < rows0 ∧ 0 < cols0 ∧ 0 < m < rows0 * cols0 ∧
  rows st = rows0 ∧ cols st = cols0 ∧ mine_count st = m ∧
  revealed st = ∅ ∧ flags st = ∅ ∧
  mines st = list_to_set (cell_of_index cols0 <$> choices) ∧
  ∀ c, neighbor_counts st !! c =
       if decide (in_bounds st c ∧ (c ∉ mines st))
       then Some (Z.of_nat (size (adjacent_mines st c))) else None.
Proof.
  unfold new. destruct ((rows0 <=? 0) || (cols0 <=? 0)) eqn:E1; [done|].
  destruct ((m <=? 0) || (m >=? rows0 * cols0)) eqn:E2; [done|].
  intros [= <-].
  apply orb_false_iff in E1 as [?%Z.leb_gt ?%Z.leb_gt].
  apply orb_false_iff in E2 as [?%Z.leb_gt E2].
  rewrite Z.geb_leb in E2. apply Z.leb_gt in E2.
  set (st0 := State rows0 cols0 m ∅ ∅ ∅ ∅).
  destruct (place_mines_spec st0 choices)
    as (Hr & Hc & Hm & Hrev & Hfl & Hnc & Hmines).
  destruct (compute_neighbor_counts_spec (place_mines st0 choices))
    as [(Hr' & Hc' & Hm' & Hmines' & Hrev' & Hfl') Hlook].
  simpl in Hr, Hc, Hm, Hrev, Hfl, Hnc, Hmines.
  split_and!; try lia; try congruence.
  - rewrite Hmines', Hmines. set_solver.
  - intros [row col]. rewrite Hlook, Hnc, lookup_empty. cbn [fst snd].
    rewrite mines_around_spec.
    rewrite <- (adjacent_mines_ext _ _ (row, col) Hr' Hc' Hmines').
    pose proof (in_bounds_ext _ _ (row, col) Hr' Hc').
    repeat case_decide; try done; exfalso; rewrite ?Hmines' in *; naive_solver.
Qed.

(** ** The invariant *)

Lemma new_wf rows0 cols0 m choices st :
  is_sample (rows0 * cols0) m choices →
  new rows0 cols0 m choices = inr st →
  wf st.
Proof.
  intros Hs Hnew.
  destruct (new_inr _ _ _ _ _ Hnew)
    as (Hr & Hc & Hm & Er & Ec & Em & Erev & Efl & Emines & Hlook).
  destruct (sample_cells rows0 cols0 m choices Hc Hs) as [Hnd Hin].
  split; rewrite ?Er, ?Ec, ?Em, ?Erev, ?Efl; try done.
  - intros c. rewrite Emines, elem_of_list_to_set. unfold in_bounds.
    rewrite Er, Ec. apply Hin.
  - rewrite Emines, size_list_to_set, length_fmap by done. apply Hs.
Qed.

Lemma wf_same_board st st' :
  same_board st st' → wf st →
  (∀ d, d ∈ revealed st' → in_bounds st d ∧ (d ∉ flags st)) →
  wf st'.
Proof.
  intros (Hr & Hc & Hm & Hmines & Hfl & Hnc & _) [] Hrev.
  assert (∀ c, in_bounds st' c ↔ in_bounds st c) as Hin
    by (intros c; by apply in_bounds_ext).
  split; rewrite ?Hr, ?Hc, ?Hm, ?Hmines, ?Hfl; try done.
  - intros c Hd. apply Hin. auto.
  - intros c. rewrite Hnc, (adjacent_mines_ext st st') by done.
    rewrite wf_counts0. specialize (Hin c).
    repeat case_decide; try done; exfalso; rewrite ?Hmines in *; naive_solver.
  - intros d Hd. apply Hin. by apply Hrev.
  - intros c Hd. apply Hin. auto.
  - intros d Hd Hd'. by apply Hrev in Hd as [_ Hd].
Qed.

Lemma reach_from_in_bounds st s d :
  in_bounds st s → reach_from st s d → in_bounds st d.
Proof.
  intros Hs. destruct 1 as [|c d _ _ Hd]; [done|].
  by eapply neighbors_in_bounds.
Qed.

Lemma reveal_loop_start fuel st start st' :
  reveal_loop fuel st [start] = Some st' →
  same_board st st' ∧
  ∀ d, d ∈ revealed st' ↔ d ∈ revealed st ∨ reach_from st start d.
Proof.
  intros H. split; [by eapply reveal_loop_same_board|].
  intros d. rewrite (reveal_loop_fill _ _ _ _ H d).
  setoid_rewrite list_elem_of_singleton. naive_solver.
Qed.

Lemma reveal_cases st row col st' b :
  reveal st row col = Some (st', b) →
  (((row, col) ∈ flags st ∨ (row, col) ∈ revealed st) ∧ st' = st ∧ b = true) ∨
  (((row, col) ∉ flags st) ∧ ((row, col) ∉ revealed st) ∧
   (row, col) ∈ mines st ∧
   st' = with_revealed st ({[ (row, col) ]} ∪ revealed st) ∧ b = false) ∨
  (((row, col) ∉ flags st) ∧ ((row, col) ∉ revealed st) ∧
   ((row, col) ∉ mines st) ∧
   reveal_loop (reveal_fuel st) st [(row, col)] = Some st' ∧ b = true).
Proof.
  unfold reveal.
  destruct (bool_decide _ || bool_decide _) eqn:E.
  { apply orb_true_iff in E. rewrite !bool_decide_eq_true in E.
    intros [= <- <-]. by left. }
  apply orb_false_iff in E as [Hf Hr]. apply bool_decide_eq_false in Hf, Hr.
  case_bool_decide as Hm.
  { intros [= <- <-]. right; left. done. }
  destruct (reveal_loop _ _ _) eqn:Hloop; [|done].
  intros [= <- <-]. right; right. done.
Qed.

Lemma reveal_wf st row col st' b :
  wf st → in_bounds st (row, col) →
  reveal st row col = Some (st', b) → wf st'.
Proof.
  intros Hwf Hin
    [(_ & -> & _)|[(Hf & Hr & Hm & -> & _)|(Hf & Hr & Hm & Hloop & _)]]%reveal_cases.
  - done.
  - eapply wf_same_board; [apply same_board_with_revealed|done|].
    simpl. intros d [->%elem_of_singleton|Hd]%elem_of_union; [done|].
    split; [by apply wf_revealed_in|]. intros Hd'. by apply (wf_disjoint _ Hwf d).
  - apply reveal_loop_start in Hloop as [Hsame Hrev].
    eapply wf_same_board; [done|done|].
    intros d [Hd|Hd]%Hrev.
    + split; [by apply wf_revealed_in|].
      intros Hd'. by apply (wf_disjoint _ Hwf d).
    + split; [by eapply reach_from_in_bounds|].
      by apply reach_from_target in Hd as [_ ?].
Qed.

Lemma toggle_flag_wf st row col :
  wf st → in_bounds st (row, col) → wf (toggle_flag st row col).
Proof.
  intros Hwf Hin. unfold toggle_flag.
  case_bool_decide as Hr; [done|].
  destruct Hwf. case_bool_decide as Hf; split; simpl; try done.
  all: try (intros d; rewrite ?elem_of_union, ?elem_of_difference,
              ?elem_of_singleton; naive_solver).
Qed.

Lemma reachable_wf st : reachable st → wf st.
Proof.
  induction 1; eauto using new_wf, reveal_wf, toggle_flag_wf.
Qed.

(** ** Zero-count regions *)

Lemma wf_lookup_Some st c n :
  wf st → neighbor_counts st !! c = Some n →
  in_bounds st c ∧ (c ∉ mines st) ∧ n = Z.of_nat (size (adjacent_mines st c)).
Proof.
  intros Hwf. rewrite (wf_counts _ Hwf). case_decide; [|done].
  intros [= <-]. tauto.
Qed.

Lemma wf_lookup_safe st c :
  wf st → in_bounds st c → (c ∉ mines st) →
  neighbor_counts st !! c = Some (Z.of_nat (size (adjacent_mines st c))).
Proof. intros Hwf ??. rewrite (wf_counts _ Hwf). by rewrite decide_True. Qed.

Lemma zero_or_numbered st c :
  wf st → in_bounds st c → (c ∉ mines st) →
  zero_cell st c ∨ numbered_cell st c.
Proof.
  intros Hwf Hin Hm. unfold zero_cell, numbered_cell.
  rewrite (wf_lookup_safe _ _ Hwf Hin Hm).
  destruct (decide (Z.of_nat (size (adjacent_mines st c)) = 0)) as [->|?];
    [by left|right; eauto].
Qed.

Lemma count_at_zero_cell st c :
  wf st → in_bounds st c → (c ∉ mines st) →
  count_at st c = 0 → zero_cell st c.
Proof.
  intros Hwf Hin Hm. unfold count_at, zero_cell.
  rewrite (wf_lookup_safe _ _ Hwf Hin Hm). simpl. by intros ->.
Qed.

Lemma zero_cell_count_at st c : zero_cell st c → count_at st c = 0.
Proof. unfold count_at, zero_cell. by intros ->. Qed.

Lemma zero_cell_neighbors_safe st c d :
  wf st → zero_cell st c → d ∈ neighbors st c.1 c.2 → d ∉ mines st.
Proof.
  intros Hwf Hz Hd Hm. destruct c as [row col].
  apply (wf_lookup_Some _ _ _ Hwf) in Hz as (_ & _ & Hz).
  assert (d ∈ adjacent_mines st (row, col)) as Hd'.
  { unfold adjacent_mines. apply elem_of_filter.
    by apply elem_of_neighbors in Hd. }
  assert (size (adjacent_mines st (row, col)) = 0%nat) as Hz' by lia.
  apply size_empty_inv in Hz'. set_solver.
Qed.

Lemma zero_region_zero_cell st s c :
  zero_region st s c → zero_cell st c ∧ covered st c.
Proof. by destruct 1. Qed.

Lemma zero_region_start_zero st s c : zero_region st s c → zero_cell st s.
Proof. by induction 1. Qed.

Lemma reach_from_region st s d :
  wf st → in_bounds st s → (s ∉ mines st) →
  reach_from st s d →
  d = s ∨ zero_region st s d ∨ border st s d.
Proof.
  intros Hwf Hin Hm. induction 1 as [|c d Hreach IH Hz Hd Hr Hf]; [by left|].
  right.
  assert (zero_region st s c) as Hc.
  { destruct IH as [->|[?|(Hn & _)]]; [|done|].
    - apply zero_region_start.
      + by apply count_at_zero_cell.
      + by apply reach_from_source in Hreach.
    - exfalso. destruct Hn as (n & Hn & Hne).
      unfold count_at in Hz. rewrite Hn in Hz. done. }
  assert (d ∉ mines st) as Hdm.
  { eapply zero_cell_neighbors_safe; [done| |done].
    by apply zero_region_zero_cell in Hc as [? _]. }
  pose proof Hd as Hd'. destruct c as [row col].
  apply elem_of_neighbors in Hd' as [Hdin Hadj].
  destruct (zero_or_numbered st d) as [Hz'|Hn]; try done.
  - left. by eapply zero_region_step.
  - right. split_and!; [done..|]. by exists (row, col).
Qed.

Lemma zero_region_reach_from st s d :
  zero_region st s d → reach_from st s d.
Proof.
  induction 1 as [Hz [Hr Hf]|c d Hc IH Hin Hadj Hz [Hr Hf]].
  - by apply reach_here.
  - eapply reach_step; [exact IH| | |done|done].
    + apply zero_cell_count_at. by apply zero_region_zero_cell in Hc as [? _].
    + destruct c. by apply elem_of_neighbors.
Qed.

Lemma border_reach_from st s d :
  border st s d → (d ∉ revealed st) → reach_from st s d.
Proof.
  intros (_ & Hf & c & Hc & Hin & Hadj) Hr.
  eapply reach_step; [by apply zero_region_reach_from| | |done|done].
  - apply zero_cell_count_at. by apply zero_region_zero_cell in Hc as [? _].
  - destruct c. by apply elem_of_neighbors.
Qed.

Lemma reach_from_safe st s d :
  wf st → in_bounds st s → (s ∉ mines st) →
  reach_from st s d → d ∉ mines st.
Proof.
  intros Hwf Hin Hm Hd.
  destruct (reach_from_region _ _ _ Hwf Hin Hm Hd) as [->|[Hz|(Hn & _)]].
  - done.
  - apply zero_region_zero_cell in Hz as [Hz _].
    by apply (wf_lookup_Some _ _ _ Hwf) in Hz as (_ & ? & _).
  - destruct Hn as (n & Hn & _).
    by apply (wf_lookup_Some _ _ _ Hwf) in Hn as (_ & ? & _).
Qed.

(** ** The example boards *)

Lemma is_sample_1x2 : is_sample (1 * 2) 1 [0].
Proof.
  split_and!; [apply NoDup_singleton|done|].
  intros i ->%list_elem_of_singleton. lia.
Qed.

Lemma new_board_1x2 : new 1 2 1 [0] = inr board_1x2.
Proof. vm_compute. reflexivity. Qed.

Lemma reachable_board_1x2 : reachable board_1x2.
Proof. eapply reachable_new; [apply is_sample_1x2|apply new_board_1x2]. Qed.

Lemma in_bounds_1x2_mine : in_bounds board_1x2 (0, 0).
Proof. unfold in_bounds. simpl. lia. Qed.

Lemma in_bounds_1x2_safe : in_bounds board_1x2 (0, 1).
Proof. unfold in_bounds. simpl. lia. Qed.

Lemma reveal_1x2_mine : reveal board_1x2 0 0 = Some (board_1x2_hit, false).
Proof. vm_compute. reflexivity. Qed.

Lemma reveal_1x2_safe : reveal board_1x2 0 1 = Some (board_1x2_won, true).
Proof. vm_compute. reflexivity. Qed.

Lemma reachable_board_1x2_hit : reachable board_1x2_hit.
Proof.
  eapply reachable_reveal;
    [apply reachable_board_1x2|apply in_bounds_1x2_mine|apply reveal_1x2_mine].
Qed.

Lemma reachable_board_1x2_won : reachable board_1x2_won.
Proof.
  eapply reachable_reveal;
    [apply reachable_board_1x2|apply in_bounds_1x2_safe|apply reveal_1x2_safe].
Qed.

Lemma is_sample_3x1 : is_sample (3 * 1) 1 [2].
Proof.
  split_and!; [apply NoDup_singleton|done|].
  intros i ->%list_elem_of_singleton. lia.
Qed.

Lemma new_board_3x1 : new 3 1 1 [2] = inr board_3x1.
Proof. vm_compute. reflexivity. Qed.

Lemma reachable_board_3x1 : reachable board_3x1.
Proof. eapply reachable_new; [apply is_sample_3x1|apply new_board_3x1]. Qed.

Lemma is_sample_4x1 : is_sample (4 * 1) 1 [3].
Proof.
  split_and!; [apply NoDup_singleton|done|].
  intros i ->%list_elem_of_singleton. lia.
Qed.

Lemma new_board_4x1 : new 4 1 1 [3] = inr board_4x1.
Proof. vm_compute. reflexivity. Qed.

Lemma in_bounds_4x1 row : 0 ≤ row < 4 → in_bounds board_4x1_flagged (row, 0).
Proof. unfold in_bounds. simpl. lia. Qed.

Lemma toggle_flag_4x1 : toggle_flag board_4x1 1 0 = board_4x1_flag.
Proof. vm_compute. reflexivity. Qed.

Lemma reveal_4x1_flag :
  reveal board_4x1_flag 2 0 = Some (board_4x1_flagged, true).
Proof. vm_compute. reflexivity. Qed.

Lemma reachable_board_4x1_flagged : reachable board_4x1_flagged.
Proof.
  apply (reachable_reveal board_4x1_flag 2 0 _ true);
    [|apply (in_bounds_4x1 2); lia|apply reveal_4x1_flag].
  rewrite <- toggle_flag_4x1.
  apply reachable_toggle_flag; [|apply (in_bounds_4x1 1); lia].
  eapply reachable_new; [apply is_sample_4x1|apply new_board_4x1].
Qed.

(** ** Scenarios *)

(** Scenario A: revealing the safe cell of the 1x2 board wins. *)
Example scenario_A :
  reveal board_1x2 0 1 = Some (board_1x2_won, true) ∧
  is_won board_1x2_won = true.
Proof. split; [apply reveal_1x2_safe|by vm_compute]. Qed.

(** Scenario B: on the 3x3 board with its mine in the centre, the corner
    has count 1 and is revealed alone. *)
Example scenario_B :
  ∃ st st', new 3 3 1 [4] = inr st ∧ mines st = {[ (1, 1) ]} ∧
            neighbor_counts st !! (0, 0) = Some 1 ∧
            reveal st 0 0 = Some (st', true) ∧ revealed st' = {[ (0, 0) ]}.
Proof.
  eexists _, _. split_and!; [by vm_compute| | |by vm_compute|];
    by vm_compute.
Qed.

(** Scenario C: on the 3x1 board the cascade from (0,0) stops at (1,0)
    and leaves the mine covered. *)
Example scenario_C :
  ∃ st', reveal board_3x1 0 0 = Some (st', true) ∧
         revealed st' = {[ (0, 0); (1, 0) ]}.
Proof. eexists. split; by vm_compute. Qed.

(** Scenario D: the two construction failures. *)
Example scenario_D :
  new 0 3 1 [] = inl InvalidDimensions ∧
  new 2 2 4 [] = inl InvalidMineCount.
Proof. split; reflexivity. Qed.

(** Scenario E: a flagged cell is protected from [reveal], and can be
    unflagged again. *)
Example scenario_E :
  let st := toggle_flag board_1x2 0 0 in
  flags st = {[ (0, 0) ]} ∧
  reveal st 0 0 = Some (st, true) ∧
  toggle_flag st 0 0 = board_1x2.
Proof. split_and!; by vm_compute. Qed.

(** ** The claims *)

(** C6: construction fails with [InvalidDimensions] exactly when
    [rows <= 0] or [cols <= 0]; otherwise it fails with [InvalidMineCount]
    exactly when [mine_count <= 0] or [mine_count >= rows * cols]; in both
    cases the result is the error, never an engine; and for all other
    arguments construction succeeds. *)
Theorem new_fails_exactly rows0 cols0 m choices :
  (new rows0 cols0 m choices = inl InvalidDimensions ↔
     rows0 ≤ 0 ∨ cols0 ≤ 0) ∧
  (new rows0 cols0 m choices = inl InvalidMineCount ↔
     ¬ (rows0 ≤ 0 ∨ cols0 ≤ 0) ∧ (m ≤ 0 ∨ rows0 * cols0 ≤ m)) ∧
  ((∃ st, new rows0 cols0 m choices = inr st) ↔
     0 < rows0 ∧ 0 < cols0 ∧ 0 < m < rows0 * cols0).
Proof.
  unfold new.
  destruct ((rows0 <=? 0) || (cols0 <=? 0)) eqn:E1;
    [|destruct ((m <=? 0) || (m >=? rows0 * cols0)) eqn:E2];
    rewrite ?orb_true_iff, ?orb_false_iff, ?Z.geb_leb, ?Z.leb_le, ?Z.leb_gt
      in *.
  - split_and!; split; try done; try lia. by intros [st ?].
  - split_and!; split; try done; try lia. by intros [st ?].
  - split_and!; split; try done; try lia. intros _. by eexists.
Qed.

(** C7: for every successful construction, whatever the sample, the Mine
    Set holds exactly [mine_count] coordinates (the cells of the sampled
    indices, pairwise distinct), all within the grid, and the Revealed
    Set and the Flagged Set start empty. *)
Theorem new_mine_set rows0 cols0 m choices st :
  is_sample (rows0 * cols0) m choices →
  new rows0 cols0 m choices = inr st →
  Z.of_nat (size (mines st)) = m ∧
  mines st = list_to_set (cell_of_index cols0 <$> choices) ∧
  NoDup (cell_of_index cols0 <$> choices) ∧
  (∀ c, c ∈ mines st → 0 ≤ c.1 < rows0 ∧ 0 ≤ c.2 < cols0) ∧
  revealed st = ∅ ∧ flags st = ∅.
Proof.
  intros Hs Hnew.
  destruct (new_inr _ _ _ _ _ Hnew)
    as (Hr & Hc & Hm & Er & Ec & Em & Erev & Efl & Emines & Hlook).
  destruct (sample_cells rows0 cols0 m choices Hc Hs) as [Hnd Hin].
  split_and!; try done.
  - rewrite Emines, size_list_to_set, length_fmap by done. apply Hs.
  - intros c. rewrite Emines, elem_of_list_to_set. apply Hin.
Qed.

Lemma new_mine_set_witness :
  Z.of_nat (size (mines board_1x2)) = 1 ∧
  mines board_1x2 = list_to_set (cell_of_index 2 <$> [0]) ∧
  NoDup (cell_of_index 2 <$> [0]) ∧
  (∀ c, c ∈ mines board_1x2 → 0 ≤ c.1 < 1 ∧ 0 ≤ c.2 < 2) ∧
  revealed board_1x2 = ∅ ∧ flags board_1x2 = ∅.
Proof.
  exact (new_mine_set 1 2 1 [0] board_1x2 is_sample_1x2 new_board_1x2).
Defined.

(** C8: after a successful construction the Neighbor Count Map is defined
    for exactly the non-mine cells of the grid, and the value of such a
    cell is the number of mines among the in-bounds cells of its
    8-neighbourhood, a number between 0 and 8. *)
Theorem new_neighbor_counts rows0 cols0 m choices st :
  is_sample (rows0 * cols0) m choices →
  new rows0 cols0 m choices = inr st →
  ∀ c,
    (is_Some (neighbor_counts st !! c) ↔ in_bounds st c ∧ (c ∉ mines st)) ∧
    (in_bounds st c → (c ∉ mines st) →
     neighbor_counts st !! c = Some (Z.of_nat (size (adjacent_mines st c))) ∧
     (size (adjacent_mines st c) ≤ 8)%nat ∧
     ∀ d, d ∈ adjacent_mines st c ↔
          d ∈ mines st ∧ in_bounds st d ∧ adjacent c d).
Proof.
  intros Hs Hnew c.
  destruct (new_inr _ _ _ _ _ Hnew) as (_ & _ & _ & _ & _ & _ & _ & _ & _ & Hlook).
  rewrite Hlook. split.
  - case_decide; split; done.
  - intros Hin Hnm. rewrite decide_True by done.
    split_and!; [done|apply adjacent_mines_le|].
    intros d. unfold adjacent_mines. rewrite elem_of_filter. tauto.
Qed.

Lemma new_neighbor_counts_witness :
  neighbor_counts board_1x2 !! (0, 1) = Some 1.
Proof.
  destruct (new_neighbor_counts 1 2 1 [0] board_1x2 is_sample_1x2
              new_board_1x2 (0, 1)) as [_ H].
  destruct H as [H _]; [apply in_bounds_1x2_safe|by vm_compute|].
  rewrite H. vm_compute. reflexivity.
Defined.

(** C5: revealing a mine that is neither flagged nor revealed returns
    false and adds exactly that cell to the Revealed Set: no cascade, and
    the dimensions, the Mine Set, the Flagged Set and the Neighbor Count
    Map are unchanged.  (The coordinate need not even be in bounds.) *)
Theorem reveal_mine st row col :
  (row, col) ∈ mines st →
  ((row, col) ∉ flags st) →
  ((row, col) ∉ revealed st) →
  ∃ st',
    reveal st row col = Some (st', false) ∧
    revealed st' = {[ (row, col) ]} ∪ revealed st ∧
    size (revealed st') = S (size (revealed st)) ∧
    rows st' = rows st ∧ cols st' = cols st ∧
    mine_count st' = mine_count st ∧
    mines st' = mines st ∧ flags st' = flags st ∧
    neighbor_counts st' = neighbor_counts st.
Proof.
  intros Hm Hf Hr.
  exists (with_revealed st ({[ (row, col) ]} ∪ revealed st)).
  split_and!; try done.
  - unfold reveal.
    rewrite (bool_decide_eq_false_2 _ Hf), (bool_decide_eq_false_2 _ Hr).
    by rewrite (bool_decide_eq_true_2 _ Hm).
  - simpl. rewrite size_union, size_singleton by set_solver. done.
Qed.

Lemma reveal_mine_witness :
  ∃ st',
    reveal board_1x2 0 0 = Some (st', false) ∧
    revealed st' = {[ (0, 0) ]} ∪ revealed board_1x2 ∧
    size (revealed st') = S (size (revealed board_1x2)) ∧
    rows st' = rows board_1x2 ∧ cols st' = cols board_1x2 ∧
    mine_count st' = mine_count board_1x2 ∧
    mines st' = mines board_1x2 ∧ flags st' = flags board_1x2 ∧
    neighbor_counts st' = neighbor_counts board_1x2.
Proof.
  apply (reveal_mine board_1x2 0 0); by vm_compute.
Defined.

(** C9: in every state reachable from a successful construction by
    in-bounds [reveal] and [toggle_flag] calls, no cell is both revealed
    and flagged; in particular [toggle_flag] leaves a revealed cell
    unflagged and [reveal], cascade included, reveals no flagged cell. *)
Theorem revealed_flags_disjoint st :
  reachable st →
  revealed st ## flags st ∧
  (∀ row col, in_bounds st (row, col) →
     revealed (toggle_flag st row col) = revealed st ∧
     ((row, col) ∈ revealed st → toggle_flag st row col = st) ∧
     revealed (toggle_flag st row col) ## flags (toggle_flag st row col)) ∧
  (∀ row col st' b, in_bounds st (row, col) →
     reveal st row col = Some (st', b) →
     flags st' = flags st ∧
     (∀ d, d ∈ flags st → d ∉ revealed st') ∧
     revealed st' ## flags st').
Proof.
  intros Hreach. split_and!.
  - by apply wf_disjoint, reachable_wf.
  - intros row col Hin. split_and!.
    + unfold toggle_flag. by repeat case_bool_decide.
    + intros Hr. unfold toggle_flag. by rewrite bool_decide_eq_true_2.
    + apply wf_disjoint, reachable_wf. by apply reachable_toggle_flag.
  - intros row col st' b Hin Hrev.
    assert (revealed st' ## flags st') as Hdis.
    { apply wf_disjoint, reachable_wf. by eapply reachable_reveal. }
    assert (flags st' = flags st) as Hfl.
    { apply reveal_cases in Hrev
        as [(_ & -> & _)|[(_ & _ & _ & -> & _)|(_ & _ & _ & Hloop & _)]];
        try done.
      by apply reveal_loop_same_board in Hloop as (_ & _ & _ & _ & ? & _). }
    split_and!; try done.
    intros d Hd Hd'. apply (Hdis d); [done|]. by rewrite Hfl.
Qed.

Lemma revealed_flags_disjoint_witness :
  reachable board_4x1_flagged ∧
  revealed board_4x1_flagged = {[ (2, 0) ]} ∧
  flags board_4x1_flagged = {[ (1, 0) ]} ∧
  revealed board_4x1_flagged ## flags board_4x1_flagged ∧
  (in_bounds board_4x1_flagged (2, 0) ∧
   (2, 0) ∈ revealed board_4x1_flagged ∧
   toggle_flag board_4x1_flagged 2 0 = board_4x1_flagged) ∧
  (in_bounds board_4x1_flagged (0, 0) ∧
   flags (toggle_flag board_4x1_flagged 0 0) = {[ (0, 0); (1, 0) ]} ∧
   revealed (toggle_flag board_4x1_flagged 0 0) = revealed board_4x1_flagged ∧
   revealed (toggle_flag board_4x1_flagged 0 0)
     ## flags (toggle_flag board_4x1_flagged 0 0)) ∧
  ∃ st', in_bounds board_4x1_flagged (0, 0) ∧
         reveal board_4x1_flagged 0 0 = Some (st', true) ∧
         revealed st' = {[ (0, 0); (2, 0) ]} ∧
         flags st' = flags board_4x1_flagged ∧
         ((1, 0) ∉ revealed st') ∧
         revealed st' ## flags st'.
Proof.
  pose proof (revealed_flags_disjoint board_4x1_flagged
                reachable_board_4x1_flagged) as (Hdis & Htoggle & Hreveal).
  assert (in_bounds board_4x1_flagged (0, 0)) as H0
    by (apply (in_bounds_4x1 0); lia).
  assert (in_bounds board_4x1_flagged (2, 0)) as H2
    by (apply (in_bounds_4x1 2); lia).
  assert ((2, 0) ∈ revealed board_4x1_flagged) as Hr
    by exact (proj2 (elem_of_singleton (C:=gset cell) (2, 0) (2, 0)) eq_refl).
  pose (st' := with_revealed board_4x1_flagged {[ (0, 0); (2, 0) ]}).
  assert (reveal board_4x1_flagged 0 0 = Some (st', true)) as Hrev
    by (vm_compute; reflexivity).
  split; [exact reachable_board_4x1_flagged|].
  split; [reflexivity|]. split; [reflexivity|]. split; [exact Hdis|].
  split.
  { split; [exact H2|]. split; [exact Hr|].
    exact (proj1 (proj2 (Htoggle 2 0 H2)) Hr). }
  split.
  { split; [exact H0|]. split; [vm_compute; reflexivity|].
    split; [exact (proj1 (Htoggle 0 0 H0))|].
    exact (proj2 (proj2 (Htoggle 0 0 H0))). }
  exists st'. destruct (Hreveal 0 0 st' true H0 Hrev) as (Hfl & Hnot & Hd).
  split; [exact H0|]. split; [exact Hrev|]. split; [reflexivity|].
  split; [exact Hfl|]. split; [|exact Hd]. apply Hnot.
  exact (proj2 (elem_of_singleton (C:=gset cell) (1, 0) (1, 0)) eq_refl).
Defined.

(** C10: every [reveal] call returns.  The loop started on any cell
    empties its queue within [8 * R * C + 9] iterations (and within
    [8 * R * C + 1] when the cell is in bounds): each iteration either
    drops an already revealed or flagged cell from the queue, or reveals
    a cell not revealed before and queues at most eight in-bounds cells. *)
Theorem reveal_terminates st row col :
  is_Some (reveal st row col) ∧
  is_Some (reveal_loop (8 * (Z.to_nat (rows st) * Z.to_nat (cols st)) + 9)
                       st [(row, col)]) ∧
  (in_bounds st (row, col) →
   is_Some (reveal_loop (8 * (Z.to_nat (rows st) * Z.to_nat (cols st)) + 1)
                        st [(row, col)])).
Proof.
  assert (is_Some (reveal_loop (reveal_fuel st) st [(row, col)])) as Hloop
    by apply reveal_loop_terminates, potential_start.
  split_and!.
  - unfold reveal. destruct (bool_decide _ || bool_decide _); [by eexists|].
    case_bool_decide; [by eexists|].
    destruct Hloop as [st' ->]. by eexists.
  - exact Hloop.
  - intros Hin. by apply reveal_loop_terminates, potential_start_in_bounds.
Qed.

Lemma reveal_terminates_witness :
  is_Some (reveal board_3x1 0 0) ∧
  is_Some (reveal_loop 25 board_3x1 [(0, 0)]).
Proof.
  destruct (reveal_terminates board_3x1 0 0) as (H1 & _ & H2).
  split; [exact H1|]. apply H2. unfold in_bounds. simpl. lia.
Defined.

(** C3: there is a valid construction and an in-bounds [reveal] call,
    revealing a mine, after which [is_won] is true although a non-mine
    cell is still unrevealed: on the 1x2 board with its mine at (0,0),
    revealing (0,0) brings the Revealed Set to size 1 = R*C - M. *)
Theorem is_won_after_mine :
  ∃ rows0 cols0 m choices st row col st',
    is_sample (rows0 * cols0) m choices ∧
    new rows0 cols0 m choices = inr st ∧
    in_bounds st (row, col) ∧
    (row, col) ∈ mines st ∧
    reveal st row col = Some (st', false) ∧
    is_won st' = true ∧
    ∃ d, in_bounds st' d ∧ (d ∉ mines st') ∧ (d ∉ revealed st').
Proof.
  exists 1, 2, 1, [0], board_1x2, 0, 0, board_1x2_hit.
  split_and!.
  - apply is_sample_1x2.
  - apply new_board_1x2.
  - apply in_bounds_1x2_mine.
  - by vm_compute.
  - apply reveal_1x2_mine.
  - by vm_compute.
  - exists (0, 1). split_and!; [apply in_bounds_1x2_safe|by vm_compute..].
Qed.

(** C4: on an in-bounds, unflagged, unrevealed non-mine cell of a
    reachable state, [reveal] returns true and the Revealed Set becomes
    the old one together with the starting cell, the connected region of
    unflagged, unrevealed zero-count cells around it, and the unflagged
    numbered cells touching that region; when the starting cell is not a
    zero-count cell it is the only cell added.  No flagged cell and no
    mine is added, and nothing but the Revealed Set changes. *)
Theorem reveal_flood_fill st row col :
  reachable st →
  in_bounds st (row, col) →
  ((row, col) ∉ flags st) →
  ((row, col) ∉ revealed st) →
  ((row, col) ∉ mines st) →
  ∃ st',
    reveal st row col = Some (st', true) ∧
    same_board st st' ∧
    (∀ d, d ∈ revealed st' ↔
          d ∈ revealed st ∨ d = (row, col) ∨
          zero_region st (row, col) d ∨ border st (row, col) d) ∧
    (¬ zero_cell st (row, col) →
     revealed st' = {[ (row, col) ]} ∪ revealed st) ∧
    (∀ d, d ∈ revealed st' → (d ∉ revealed st) →
          (d ∉ flags st) ∧ (d ∉ mines st)).
Proof.
  intros Hreach Hin Hf Hr Hm. pose proof (reachable_wf _ Hreach) as Hwf.
  destruct (reveal_loop_terminates (reveal_fuel st) st [(row, col)]
              (potential_start st (row, col))) as [st' Hloop].
  exists st'.
  destruct (reveal_loop_start _ _ _ _ Hloop) as [Hsame Hrev].
  assert (∀ d, d ∈ revealed st' ↔
               d ∈ revealed st ∨ d = (row, col) ∨
               zero_region st (row, col) d ∨ border st (row, col) d) as Hchar.
  { intros d. rewrite Hrev. split.
    - intros [?|Hd]; [by left|]. right. by apply reach_from_region.
    - intros [?|[->|[Hd|Hd]]]; [by left| | |].
      + right. by apply reach_here.
      + right. by apply zero_region_reach_from.
      + destruct (decide (d ∈ revealed st)); [by left|].
        right. by apply border_reach_from. }
  split_and!; [|done|done| |].
  - unfold reveal.
    rewrite (bool_decide_eq_false_2 _ Hf), (bool_decide_eq_false_2 _ Hr).
    rewrite (bool_decide_eq_false_2 _ Hm). simpl. by rewrite Hloop.
  - intros Hnz. apply set_eq. intros d. rewrite Hchar.
    rewrite elem_of_union, elem_of_singleton. split; [|tauto].
    intros [?|[?|[Hd|(_ & _ & c & Hd & _)]]]; [tauto|tauto| |];
      by apply zero_region_start_zero in Hd.
  - intros d Hd Hnr. apply Hrev in Hd as [?|Hd]; [done|]. split.
    + by apply reach_from_target in Hd as [_ ?].
    + by eapply reach_from_safe.
Qed.

Lemma reveal_flood_fill_witness :
  ∃ st',
    reveal board_3x1 0 0 = Some (st', true) ∧
    revealed st' = {[ (0, 0); (1, 0) ]}.
Proof.
  destruct (reveal_flood_fill board_3x1 0 0 reachable_board_3x1)
    as (st' & Hrev & _); [unfold in_bounds; simpl; lia|by vm_compute..|].
  exists st'. split; [exact Hrev|].
  vm_compute in Hrev. injection Hrev as <-. vm_compute. reflexivity.
Defined.

(** C2, as the code has it: [is_won] is true exactly when the size of
    the Revealed Set is [R*C - M], whatever the Flagged Set holds; and in
    a reachable state where no mine has been revealed, this is the case
    exactly when every non-mine cell of the grid is revealed. *)
Theorem is_won_iff st :
  reachable st →
  (is_won st = true ↔
     Z.of_nat (size (revealed st)) = rows st * cols st - mine_count st) ∧
  (∀ fl, is_won (with_flags st fl) = is_won st) ∧
  (revealed st ## mines st →
   (is_won st = true ↔
      ∀ c, in_bounds st c → (c ∉ mines st) → c ∈ revealed st)).
Proof.
  intros Hreach. pose proof (reachable_wf _ Hreach) as Hwf.
  split_and!; [apply Z.eqb_eq|done|].
  intros Hdis. unfold is_won. rewrite Z.eqb_eq.
  assert (mines st ⊆ grid_set st) as Hmg.
  { intros c Hc. apply elem_of_grid_set. by apply wf_mines_in. }
  assert (revealed st ⊆ grid_set st ∖ mines st) as Hsub.
  { intros c Hc. apply elem_of_difference.
    split; [|intros Hcm; by apply (Hdis c)].
    apply elem_of_grid_set. by apply wf_revealed_in. }
  assert (Z.of_nat (size (grid_set st ∖ mines st))
          = rows st * cols st - mine_count st) as Hsize.
  { rewrite size_difference, size_grid_set by done.
    pose proof (subseteq_size _ _ Hmg) as Hle. rewrite size_grid_set in Hle.
    destruct Hwf. lia. }
  split.
  - intros Heq c Hc Hcm.
    assert (revealed st = grid_set st ∖ mines st) as ->.
    { apply set_subseteq_size_eq; [done|]. lia. }
    apply elem_of_difference. by rewrite elem_of_grid_set.
  - intros Hall. rewrite <- Hsize. f_equal. f_equal.
    apply set_eq. intros c. split; [apply Hsub|].
    intros [Hc Hcm]%elem_of_difference. apply Hall; [|done].
    by apply elem_of_grid_set.
Qed.

Lemma is_won_iff_witness :
  is_won board_1x2_won = true ↔
  ∀ c, in_bounds board_1x2_won c → (c ∉ mines board_1x2_won) →
       c ∈ revealed board_1x2_won.
Proof.
  destruct (is_won_iff board_1x2_won reachable_board_1x2_won) as (_ & _ & H).
  apply H. simpl. apply disjoint_singleton_l.
  by intros [=]%elem_of_singleton.
Defined.

(** C2 as stated fails: after the mine of the 1x2 board has been
    revealed, [is_won] is true although the non-mine cell (0,1) is not
    revealed. *)
Lemma is_won_counterexample :
  reachable board_1x2_hit ∧
  is_won board_1x2_hit = true ∧
  in_bounds board_1x2_hit (0, 1) ∧
  ((0, 1) ∉ mines board_1x2_hit) ∧
  ((0, 1) ∉ revealed board_1x2_hit).
Proof.
  split_and!; [apply reachable_board_1x2_hit|by vm_compute| |by vm_compute..].
  unfold in_bounds. simpl. lia.
Qed.

(** C1, as the code has it: on a flagged or revealed cell [reveal]
    changes nothing and returns true; and after any first call, a second
    call on the same coordinate changes nothing and returns true, which
    is the first call's result unless the first call revealed a mine
    (an unflagged, unrevealed mine: the only case that returns false). *)
Theorem reveal_twice st row col :
  ((row, col) ∈ flags st ∨ (row, col) ∈ revealed st →
   reveal st row col = Some (st, true)) ∧
  ∃ st1 b1,
    reveal st row col = Some (st1, b1) ∧
    reveal st1 row col = Some (st1, true) ∧
    (b1 = false ↔
       (row, col) ∈ mines st ∧ ((row, col) ∉ flags st) ∧
       ((row, col) ∉ revealed st)).
Proof.
  assert (∀ s, (row, col) ∈ flags s ∨ (row, col) ∈ revealed s →
               reveal s row col = Some (s, true)) as Hguard.
  { intros s Hs. unfold reveal.
    destruct (bool_decide _ || bool_decide _) eqn:E; [done|].
    apply orb_false_iff in E as [E1 E2].
    apply bool_decide_eq_false in E1, E2. tauto. }
  split; [apply Hguard|].
  destruct (reveal_loop_terminates (reveal_fuel st) st [(row, col)]
              (potential_start st (row, col))) as [st' Hloop].
  destruct (decide ((row, col) ∈ flags st ∨ (row, col) ∈ revealed st))
    as [Hg|Hg].
  { exists st, true. rewrite Hguard by done. split_and!; try done.
    split; [done|]. tauto. }
  assert ((row, col) ∉ flags st) as Hf by tauto.
  assert ((row, col) ∉ revealed st) as Hr by tauto.
  destruct (decide ((row, col) ∈ mines st)) as [Hm|Hm].
  - exists (with_revealed st ({[ (row, col) ]} ∪ revealed st)), false.
    split_and!.
    + unfold reveal.
      rewrite (bool_decide_eq_false_2 _ Hf), (bool_decide_eq_false_2 _ Hr).
      by rewrite (bool_decide_eq_true_2 _ Hm).
    + apply Hguard. right. simpl. set_solver.
    + tauto.
  - exists st', true. split_and!.
    + unfold reveal.
      rewrite (bool_decide_eq_false_2 _ Hf), (bool_decide_eq_false_2 _ Hr).
      rewrite (bool_decide_eq_false_2 _ Hm). simpl. by rewrite Hloop.
    + apply Hguard. right.
      apply (reveal_loop_start _ _ _ _ Hloop). right. by apply reach_here.
    + split; [done|tauto].
Qed.

(** C1 as stated fails: on the 1x2 board the first [reveal] of the mine
    at (0,0) returns false and the second one returns true. *)
Lemma reveal_twice_counterexample :
  reachable board_1x2 ∧
  in_bounds board_1x2 (0, 0) ∧
  reveal board_1x2 0 0 = Some (board_1x2_hit, false) ∧
  reveal board_1x2_hit 0 0 = Some (board_1x2_hit, true).
Proof.
  split_and!;
    [apply reachable_board_1x2|apply in_bounds_1x2_mine|apply reveal_1x2_mine|].
  vm_compute. reflexivity.
Qed.

(** ** Further properties of the engine *)

(** [neighbors] yields exactly the in-bounds cells at distance one from
    the given cell (so never the cell itself), each once, at most eight
    of them. *)
Theorem neighbors_complete st row col :
  NoDup (neighbors st row col) ∧
  (length (neighbors st row col) ≤ 8)%nat ∧
  ((row, col) ∉ neighbors st row col) ∧
  ∀ d, d ∈ neighbors st row col ↔
       (0 ≤ d.1 < rows st ∧ 0 ≤ d.2 < cols st) ∧
       d ≠ (row, col) ∧
       Z.abs (d.1 - row) ≤ 1 ∧ Z.abs (d.2 - col) ≤ 1.
Proof.
  split_and!.
  - apply NoDup_neighbors.
  - apply length_neighbors.
  - intros [_ [Hne _]]%elem_of_neighbors. done.
  - intros d. apply elem_of_neighbors.
Qed.

(** A cell that is not on the edge of the grid has its eight neighbours,
    produced row by row from the upper left one. *)
Theorem neighbors_interior st row col :
  0 < row → row + 1 < rows st → 0 < col → col + 1 < cols st →
  neighbors st row col =
    [ (row - 1, col - 1); (row - 1, col); (row - 1, col + 1);
      (row, col - 1); (row, col + 1);
      (row + 1, col - 1); (row + 1, col); (row + 1, col + 1) ].
Proof.
  intros Hr1 Hr2 Hc1 Hc2. unfold neighbors. cbn.
  rewrite !Z.add_0_r.
  change (row + -1) with (row - 1). change (col + -1) with (col - 1).
  repeat match goal with
         | |- context [(0 <=? ?x)] =>
             rewrite (proj2 (Z.leb_le 0 x)) by lia
         | |- context [(?x <? ?y)] =>
             rewrite (proj2 (Z.ltb_lt x y)) by lia
         end.
  reflexivity.
Qed.

Lemma neighbors_interior_witness :
  neighbors (State 3 3 1 {[ (1, 1) ]} ∅ ∅ ∅) 1 1 =
    [ (0, 0); (0, 1); (0, 2); (1, 0); (1, 2); (2, 0); (2, 1); (2, 2) ].
Proof.
  apply (neighbors_interior (State 3 3 1 {[ (1, 1) ]} ∅ ∅ ∅) 1 1);
    simpl; lia.
Defined.

(** Being a neighbour is symmetric between cells of the grid. *)
Theorem neighbors_symmetric st c d :
  in_bounds st c → in_bounds st d →
  (d ∈ neighbors st c.1 c.2 ↔ c ∈ neighbors st d.1 d.2).
Proof.
  intros Hc Hd. destruct c as [cr cc], d as [dr dc].
  rewrite !elem_of_neighbors. unfold adjacent. simpl.
  split; intros [_ (Hne & H1 & H2)]; (split; [done|]);
    (split; [congruence|lia]).
Qed.

Lemma neighbors_symmetric_witness :
  (0, 1) ∈ neighbors board_1x2 0 0 ↔ (0, 0) ∈ neighbors board_1x2 0 1.
Proof.
  apply (neighbors_symmetric board_1x2 (0, 0) (0, 1));
    [apply in_bounds_1x2_mine|apply in_bounds_1x2_safe].
Defined.

(** Toggling the flag of a cell twice gives back the same engine state,
    whether the cell is revealed, flagged or neither. *)
Theorem toggle_flag_involutive st row col :
  toggle_flag (toggle_flag st row col) row col = st.
Proof.
  destruct st as [r c m ms rv fl nc].
  destruct (decide ((row, col) ∈ rv)) as [Hr|Hr].
  { unfold toggle_flag. simpl. rewrite (bool_decide_eq_true_2 _ Hr). simpl.
    by rewrite (bool_decide_eq_true_2 _ Hr). }
  destruct (decide ((row, col) ∈ fl)) as [Hf|Hf]; unfold toggle_flag; simpl.
  - rewrite (bool_decide_eq_false_2 _ Hr), (bool_decide_eq_true_2 _ Hf). simpl.
    rewrite (bool_decide_eq_false_2 _ Hr).
    rewrite bool_decide_eq_false_2 by set_solver. unfold with_flags. simpl.
    f_equal. apply set_eq. intros x.
    rewrite elem_of_union, elem_of_difference, elem_of_singleton.
    destruct (decide (x = (row, col))) as [->|]; naive_solver.
  - rewrite (bool_decide_eq_false_2 _ Hr), (bool_decide_eq_false_2 _ Hf). simpl.
    rewrite (bool_decide_eq_false_2 _ Hr).
    rewrite bool_decide_eq_true_2 by set_solver. unfold with_flags. simpl.
    f_equal. set_solver.
Qed.

(** [toggle_flag] touches nothing but the flag of the given cell: it
    flips it when the cell is not revealed and leaves it alone when it
    is; every other flag, the Revealed Set, the mines, the counts and
    the outcome of [is_won] stay as they were. *)
Theorem toggle_flag_only_flips st row col :
  let st' := toggle_flag st row col in
  rows st' = rows st ∧ cols st' = cols st ∧
  mine_count st' = mine_count st ∧ mines st' = mines st ∧
  revealed st' = revealed st ∧ neighbor_counts st' = neighbor_counts st ∧
  is_won st' = is_won st ∧
  (∀ d, d ≠ (row, col) → (d ∈ flags st' ↔ d ∈ flags st)) ∧
  ((row, col) ∈ flags st' ↔
     ((row, col) ∉ revealed st) ∧ ((row, col) ∉ flags st) ∨
     (row, col) ∈ revealed st ∧ (row, col) ∈ flags st).
Proof.
  unfold toggle_flag.
  case_bool_decide as Hr; [|case_bool_decide as Hf]; simpl;
    (split_and!; try done).
  - tauto.
  - intros d Hd. set_solver.
  - set_solver.
  - intros d Hd. set_solver.
  - set_solver.
Qed.

(** In any state and on any coordinate, in bounds or not, [reveal]
    returns, and all it changes is the Revealed Set, which only grows:
    the dimensions, the mines, the flags and the counts are untouched,
    no flagged cell is revealed, the given cell ends up revealed unless
    it is flagged, and every other cell added lies in the grid. *)
Theorem reveal_only_grows_revealed st row col :
  ∃ st' b,
    reveal st row col = Some (st', b) ∧
    same_board st st' ∧
    (∀ d, d ∈ revealed st' → (d ∉ revealed st) → d ∉ flags st) ∧
    (((row, col) ∉ flags st) → (row, col) ∈ revealed st') ∧
    (∀ d, d ∈ revealed st' →
          d ∈ revealed st ∨ d = (row, col) ∨ in_bounds st d).
Proof.
  destruct (reveal_loop_terminates (reveal_fuel st) st [(row, col)]
              (potential_start st (row, col))) as [st2 Hloop].
  unfold reveal.
  destruct (bool_decide _ || bool_decide _) eqn:E.
  { exists st, true. apply orb_true_iff in E.
    rewrite !bool_decide_eq_true in E.
    split_and!; [done|apply same_board_refl|done|tauto|by left]. }
  apply orb_false_iff in E as [Hf Hr]. apply bool_decide_eq_false in Hf, Hr.
  case_bool_decide as Hm.
  { eexists _, false. split_and!; [done|apply same_board_with_revealed|..];
      simpl.
    - intros d [->%elem_of_singleton|?]%elem_of_union ?; done.
    - set_solver.
    - intros d [->%elem_of_singleton|?]%elem_of_union; auto. }
  rewrite Hloop. exists st2, true.
  destruct (reveal_loop_start _ _ _ _ Hloop) as [Hsame Hrev].
  split_and!; [done|done|..].
  - intros d [?|Hd]%Hrev ?; [done|]. by apply reach_from_target in Hd as [_ ?].
  - intros _. apply Hrev. right. by apply reach_here.
  - intros d [?|Hd]%Hrev; [by left|]. right.
    destruct Hd as [|c d _ _ Hd]; [by left|].
    right. by eapply neighbors_in_bounds.
Qed.

(** A game that has just been constructed is not won: nothing is
    revealed and at least one cell is safe. *)
Theorem new_not_won rows0 cols0 m choices st :
  new rows0 cols0 m choices = inr st → is_won st = false.
Proof.
  intros Hnew.
  destruct (new_inr _ _ _ _ _ Hnew)
    as (Hr & Hc & Hm & Er & Ec & Em & Erev & _).
  unfold is_won. rewrite Erev, size_empty, Er, Ec, Em.
  apply Z.eqb_neq. lia.
Qed.

Lemma new_not_won_witness : is_won board_1x2 = false.
Proof. apply (new_not_won 1 2 1 [0] board_1x2 new_board_1x2). Defined.

(** On a coordinate outside the grid [reveal] does not fail: in a
    reachable state it returns true, records the outside cell as
    revealed, and reveals every unflagged grid cell next to it, whether
    that cell is a mine or not. *)
Theorem reveal_out_of_bounds st row col :
  reachable st → ¬ in_bounds st (row, col) →
  ∃ st',
    reveal st row col = Some (st', true) ∧
    (row, col) ∈ revealed st' ∧
    (∀ d, d ∈ neighbors st row col → (d ∉ flags st) → d ∈ revealed st') ∧
    (size (revealed st) < size (revealed st'))%nat.
Proof.
  intros Hreach Hout. pose proof (reachable_wf _ Hreach) as Hwf.
  assert ((row, col) ∉ flags st) as Hf
    by (intros H; by apply (wf_flags_in _ Hwf) in H).
  assert ((row, col) ∉ revealed st) as Hr
    by (intros H; by apply (wf_revealed_in _ Hwf) in H).
  assert ((row, col) ∉ mines st) as Hm
    by (intros H; by apply (wf_mines_in _ Hwf) in H).
  destruct (reveal_loop_terminates (reveal_fuel st) st [(row, col)]
              (potential_start st (row, col))) as [st' Hloop].
  destruct (reveal_loop_start _ _ _ _ Hloop) as [Hsame Hrev].
  assert (reach_from st (row, col) (row, col)) as Hstart by by apply reach_here.
  exists st'. split_and!.
  - unfold reveal.
    rewrite (bool_decide_eq_false_2 _ Hf), (bool_decide_eq_false_2 _ Hr).
    rewrite (bool_decide_eq_false_2 _ Hm). simpl. by rewrite Hloop.
  - apply Hrev. by right.
  - intros d Hd Hdf. apply Hrev.
    destruct (decide (d ∈ revealed st)); [by left|]. right.
    eapply reach_step; [exact Hstart| |done|done|done].
    unfold count_at. rewrite (wf_counts _ Hwf), decide_False; [done|tauto].
  - apply subset_size. split; [apply Hsame|].
    intros Hsub. apply Hr, Hsub, Hrev. by right.
Qed.

Lemma reveal_out_of_bounds_witness :
  ∃ st',
    reveal board_1x2 (-1) 0 = Some (st', true) ∧
    (0, 0) ∈ mines board_1x2 ∧ (0, 0) ∈ revealed st'.
Proof.
  destruct (reveal_out_of_bounds board_1x2 (-1) 0 reachable_board_1x2)
    as (st' & Hrev & _ & Hn & _); [unfold in_bounds; simpl; lia|].
  exists st'. split_and!; [done|by vm_compute|].
  apply Hn; [|by vm_compute].
  apply elem_of_neighbors. unfold in_bounds, adjacent. simpl.
  split; [lia|]. split; [done|lia].
Defined.

(** ** Rendering *)

Lemma count_at_range st c : wf st → 0 ≤ count_at st c ≤ 8.
Proof.
  intros Hwf. unfold count_at. rewrite (wf_counts _ Hwf).
  case_decide; simpl; [|lia].
  pose proof (adjacent_mines_le st c). lia.
Qed.

Lemma symbol_cases st b c :
  (b = true ∧ c ∈ mines st ∧ symbol st b c = PyStr.lit "*") ∨
  (¬ (b = true ∧ c ∈ mines st) ∧
   ((c ∈ revealed st ∧ 0 < count_at st c ∧
     symbol st b c = PyStr.of_int (count_at st c)) ∨
    (c ∈ revealed st ∧ count_at st c ≤ 0 ∧ symbol st b c = PyStr.lit " ") ∨
    ((c ∉ revealed st) ∧ c ∈ flags st ∧ symbol st b c = PyStr.lit "F") ∨
    ((c ∉ revealed st) ∧ (c ∉ flags st) ∧ symbol st b c = PyStr.lit "."))).
Proof.
  unfold symbol. destruct b; simpl.
  - case_bool_decide as Hm; [by left|]. right. split; [tauto|].
    case_bool_decide; [|case_bool_decide; tauto].
    destruct (0 <? count_at st c) eqn:E;
      [apply Z.ltb_lt in E|apply Z.ltb_ge in E]; tauto.
  - right. split; [by intros [? _]|].
    case_bool_decide; [|case_bool_decide; tauto].
    destruct (0 <? count_at st c) eqn:E;
      [apply Z.ltb_lt in E|apply Z.ltb_ge in E]; tauto.
Qed.

Lemma symbol_star st b c a :
  a ∈ symbol st b c → a = "*"%char → b = true ∧ c ∈ mines st.
Proof.
  intros Ha ->.
  destruct (symbol_cases st b c)
    as [(? & ? & _)|(_ & [(_ & Hc & E)|[(_ & _ & E)|[(_ & _ & E)|(_ & _ & E)]]])];
    [done|rewrite E in Ha..].
  - apply PyStr.of_int_digits in Ha; [done|lia].
  - by apply list_elem_of_singleton in Ha.
  - by apply list_elem_of_singleton in Ha.
  - by apply list_elem_of_singleton in Ha.
Qed.

Lemma symbol_single st b c :
  wf st → ∃ a, symbol st b c = [a] ∧ (a = "*"%char ↔ b = true ∧ c ∈ mines st).
Proof.
  intros Hwf. pose proof (count_at_range st c Hwf) as Hc.
  assert (∃ a, symbol st b c = [a]) as [a Ha].
  { destruct (symbol_cases st b c)
      as [(_ & _ & ->)|(_ & [(_ & ? & ->)|[(_ & _ & ->)|[(_ & _ & ->)|(_ & _ & ->)]]])];
      try (by eexists).
    pose proof (PyStr.length_of_int_small (count_at st c)) as Hlen.
    destruct (PyStr.of_int (count_at st c)) as [|a [|??]];
      simpl in Hlen; try lia. by eexists. }
  exists a. split; [done|]. split.
  - intros ->. apply (symbol_star st b c "*"%char); [|done].
    rewrite Ha. by left.
  - intros [-> Hm]. unfold symbol in Ha. simpl in Ha.
    rewrite bool_decide_eq_true_2 in Ha by done. by injection Ha as <-.
Qed.

Lemma format_2d_chars n a :
  0 ≤ n → a ∈ PyStr.format_2d n → a = " "%char ∨ PyStr.isdigit a = true.
Proof.
  intros Hn [Ha|Ha]%elem_of_app.
  - left. by apply elem_of_replicate in Ha as [-> _].
  - right. by eapply PyStr.of_int_digits.
Qed.

Lemma display_header_chars st a :
  a ∈ display_header st → a = " "%char ∨ PyStr.isdigit a = true.
Proof.
  unfold display_header. intros [Ha|Ha]%elem_of_app.
  - left. unfold PyStr.lit in Ha. simpl in Ha.
    rewrite !elem_of_cons, elem_of_nil in Ha. tauto.
  - apply PyStr.elem_of_join in Ha as [Ha|(p & Hp & Ha)].
    + left. by apply list_elem_of_singleton in Ha.
    + apply list_elem_of_fmap in Hp as (n & -> & Hn%elem_of_range).
      apply (format_2d_chars n); [lia|done].
Qed.

Lemma display_row_chars st b r a :
  0 ≤ r → a ∈ display_row st b r →
  a = " "%char ∨ PyStr.isdigit a = true ∨ ∃ c, a ∈ symbol st b (r, c).
Proof.
  unfold display_row. intros Hr [[Ha|Ha]%elem_of_app|Ha]%elem_of_app.
  - destruct (format_2d_chars r a Hr Ha); tauto.
  - left. by apply list_elem_of_singleton in Ha.
  - apply list_elem_of_join in Ha as (p & Ha & Hp).
    apply list_elem_of_fmap in Hp as (c & -> & _).
    unfold PyStr.format_2s in Ha. apply elem_of_app in Ha as [Ha|Ha].
    + right; right. by exists c.
    + left. by apply elem_of_replicate in Ha as [-> _].
Qed.

Lemma display_lines_no_star st line :
  line ∈ display_lines st false → "*"%char ∉ line.
Proof.
  unfold display_lines. intros Hline Ha.
  apply elem_of_cons in Hline as [->|Hline].
  { by apply display_header_chars in Ha as [?|?]. }
  apply list_elem_of_fmap in Hline as (r & -> & Hr%elem_of_range).
  apply display_row_chars in Ha as [?|[?|[c Hc]]]; [done|done| |lia].
  by apply (symbol_star st false (r, c) "*"%char) in Hc as [? _].
Qed.

(** [display()] without [show_mines] never prints a star, whatever the
    state: the only stars of a rendering are those of [show_mines]. *)
Theorem display_masks_mines st : "*"%char ∉ display st false.
Proof.
  unfold display.
  intros [Ha|(line & Hline & Ha)]%PyStr.elem_of_join.
  - by apply list_elem_of_singleton in Ha.
  - by apply (display_lines_no_star st line).
Qed.

(** What [display()] prints without [show_mines] depends on the
    dimensions, the Revealed Set, the Flagged Set and the counts of the
    revealed cells only: two boards that agree on these render alike,
    wherever their mines are. *)
Theorem display_hides_mines st1 st2 :
  rows st1 = rows st2 → cols st1 = cols st2 →
  revealed st1 = revealed st2 → flags st1 = flags st2 →
  (∀ c, c ∈ revealed st1 → count_at st1 c = count_at st2 c) →
  display st1 false = display st2 false.
Proof.
  intros Hr Hc Hrev Hfl Hcount.
  unfold display, display_lines, display_header, display_row.
  rewrite Hr, Hc. do 2 f_equal.
  apply list_fmap_ext. intros _ r _. do 2 f_equal.
  apply list_fmap_ext. intros _ c _. f_equal.
  unfold symbol. simpl. rewrite <- Hrev, <- Hfl.
  case_bool_decide; [|done]. by rewrite Hcount.
Qed.

Lemma display_hides_mines_witness :
  display board_1x2 false =
  display (State 1 2 1 {[ (0, 1) ]} ∅ ∅ {[ (0, 0) := 1 ]}) false.
Proof.
  apply (display_hides_mines board_1x2
           (State 1 2 1 {[ (0, 1) ]} ∅ ∅ {[ (0, 0) := 1 ]})); done.
Defined.

Lemma display_cells_width st b r :
  wf st →
  Forall (λ p : PyStr.str, length p = 2%nat)
         ((λ c, PyStr.format_2s (symbol st b (r, c))) <$> range (cols st)).
Proof.
  intros Hwf. apply Forall_fmap, Forall_forall. intros c _. simpl.
  destruct (symbol_single st b (r, c) Hwf) as (a & -> & _). done.
Qed.

Lemma display_lines_lookup st b r :
  0 ≤ r < rows st →
  display_lines st b !! Z.to_nat (r + 1) = Some (display_row st b r).
Proof.
  intros Hr. unfold display_lines.
  replace (Z.to_nat (r + 1)) with (S (Z.to_nat r)) by lia. simpl.
  rewrite list_lookup_fmap. unfold range.
  rewrite (lookup_seqZ_lt 0 (rows st) (Z.to_nat r)) by lia. simpl.
  f_equal. f_equal. lia.
Qed.

Lemma display_row_lookup st b r c i x :
  wf st → 0 ≤ r < 100 → 0 ≤ c < cols st → (i < 2)%nat →
  PyStr.format_2s (symbol st b (r, c)) !! i = Some x →
  display_row st b r !! (3 + (Z.to_nat c * 2 + i))%nat = Some x.
Proof.
  intros Hwf Hr Hc Hi Hx. unfold display_row.
  assert (length (PyStr.format_2d r ++ PyStr.lit " ") = 3%nat) as Hlen
    by (rewrite length_app, PyStr.length_format_2d by lia; done).
  rewrite lookup_app_r; rewrite Hlen; [|lia].
  replace (3 + (Z.to_nat c * 2 + i) - 3)%nat with (Z.to_nat c * 2 + i)%nat
    by lia.
  apply join_lookup_Some_same_length'; [by apply display_cells_width|done|].
  eexists. split; [|exact Hx].
  rewrite list_lookup_fmap. unfold range.
  rewrite (lookup_seqZ_lt 0 (cols st) (Z.to_nat c)) by lia. simpl.
  do 4 f_equal. lia.
Qed.

(** In a state of the game, the cell (r, c) is drawn on line r + 1 of
    the board as one character followed by a space, at columns 3 + 2c
    and 4 + 2c (rows below 100); the character is a star exactly when
    [show_mines] is set and the cell is a mine. *)
Theorem display_shows_cell st b r c :
  reachable st → 0 ≤ r < rows st → r < 100 → 0 ≤ c < cols st →
  ∃ line a,
    display_lines st b !! Z.to_nat (r + 1) = Some line ∧
    symbol st b (r, c) = [a] ∧
    line !! Z.to_nat (3 + 2 * c) = Some a ∧
    line !! Z.to_nat (4 + 2 * c) = Some " "%char ∧
    (a = "*"%char ↔ b = true ∧ (r, c) ∈ mines st).
Proof.
  intros Hreach Hr Hr100 Hc. pose proof (reachable_wf _ Hreach) as Hwf.
  destruct (symbol_single st b (r, c) Hwf) as (a & Ha & Hstar).
  exists (display_row st b r), a.
  split_and!; [by apply display_lines_lookup|done| | |done].
  - replace (Z.to_nat (3 + 2 * c)) with (3 + (Z.to_nat c * 2 + 0))%nat by lia.
    apply display_row_lookup; [done|lia|done|lia|]. by rewrite Ha.
  - replace (Z.to_nat (4 + 2 * c)) with (3 + (Z.to_nat c * 2 + 1))%nat by lia.
    apply display_row_lookup; [done|lia|done|lia|]. by rewrite Ha.
Qed.

Lemma display_shows_cell_witness :
  ∃ line,
    display_lines board_1x2_hit true !! 1%nat = Some line ∧
    line !! 3%nat = Some "*"%char.
Proof.
  destruct (display_shows_cell board_1x2_hit true 0 0
              reachable_board_1x2_hit)
    as (line & a & Hline & _ & Ha & _ & Hstar); [simpl; lia..|].
  exists line. split; [exact Hline|].
  rewrite (proj2 Hstar) in Ha; [exact Ha|]. split; [done|by vm_compute].
Defined.

(** The board has one header line and one line per row.  With at most
    100 rows and columns, every row line is [2 * cols + 3] characters
    wide, two per cell, whereas the header is [3 * cols + 2] wide, three
    per column label: from the second column on, the labels do not stand
    above their cells. *)
Theorem display_layout st b :
  reachable st → rows st ≤ 100 → cols st ≤ 100 →
  length (display_lines st b) = S (Z.to_nat (rows st)) ∧
  length (display_header st) = Z.to_nat (3 * cols st + 2) ∧
  ∀ r, 0 ≤ r < rows st →
       length (display_row st b r) = Z.to_nat (2 * cols st + 3).
Proof.
  intros Hreach Hrows Hcols. pose proof (reachable_wf _ Hreach) as Hwf.
  pose proof (wf_cols _ Hwf) as Hc0.
  split_and!.
  - unfold display_lines, range. simpl.
    by rewrite length_fmap, length_seqZ.
  - unfold display_header. rewrite length_app.
    rewrite (PyStr.length_join_uniform _ _ 2).
    + unfold range. rewrite length_fmap, length_seqZ. simpl. lia.
    + apply Forall_fmap, Forall_forall. intros n Hn%elem_of_range. simpl.
      apply PyStr.length_format_2d. lia.
    + unfold range. intros E%fmap_nil_inv.
      apply (f_equal length) in E. rewrite length_seqZ in E. simpl in E. lia.
  - intros r Hr. unfold display_row.
    rewrite !length_app, PyStr.length_format_2d by lia.
    rewrite length_join, (sum_list_fmap_same 2)
      by by apply display_cells_width.
    unfold range. rewrite length_fmap, length_seqZ. simpl. lia.
Qed.

Lemma display_layout_witness :
  length (display_header board_1x2) = 8%nat ∧
  length (display_row board_1x2 false 0) = 7%nat.
Proof.
  destruct (display_layout board_1x2 false reachable_board_1x2)
    as (_ & Hh & Hr); [simpl; lia..|].
  split; [exact Hh|]. apply Hr. simpl. lia.
Defined.

(** ** The driver *)

Lemma reveal_is_Some st row col : is_Some (reveal st row col).
Proof.
  unfold reveal. destruct (bool_decide _ || bool_decide _); [by eexists|].
  case_bool_decide; [by eexists|].
  destruct (reveal_loop_terminates (reveal_fuel st) st [(row, col)]
              (potential_start st (row, col))) as [st' ->].
  by eexists.
Qed.

Lemma fresh_not_won rows0 cols0 m choices st :
  new rows0 cols0 m choices = inr st → is_won st = false.
Proof.
  intros Hnew.
  destruct (new_inr _ _ _ _ _ Hnew)
    as (Hr & Hc & Hm & Er & Ec & Em & Erev & _).
  unfold is_won. rewrite Erev, size_empty, Er, Ec, Em.
  apply Z.eqb_neq. lia.
Qed.

Lemma won_all_safe st :
  wf st → revealed st ## mines st →
  (is_won st = true ↔
     ∀ c, in_bounds st c → (c ∉ mines st) → c ∈ revealed st).
Proof.
  intros Hwf Hdis. unfold is_won. rewrite Z.eqb_eq.
  assert (mines st ⊆ grid_set st) as Hmg.
  { intros c Hc. apply elem_of_grid_set. by apply wf_mines_in. }
  assert (revealed st ⊆ grid_set st ∖ mines st) as Hsub.
  { intros c Hc. apply elem_of_difference.
    split; [|intros Hcm; by apply (Hdis c)].
    apply elem_of_grid_set. by apply wf_revealed_in. }
  assert (Z.of_nat (size (grid_set st ∖ mines st))
          = rows st * cols st - mine_count st) as Hsize.
  { rewrite size_difference, size_grid_set by done.
    pose proof (subseteq_size _ _ Hmg) as Hle. rewrite size_grid_set in Hle.
    destruct Hwf. lia. }
  split.
  - intros Heq c Hc Hcm.
    assert (revealed st = grid_set st ∖ mines st) as ->.
    { apply set_subseteq_size_eq; [done|]. lia. }
    apply elem_of_difference. by rewrite elem_of_grid_set.
  - intros Hall. rewrite <- Hsize. f_equal. f_equal.
    apply set_eq. intros c. split; [apply Hsub|].
    intros [Hc Hcm]%elem_of_difference. apply Hall; [|done].
    by apply elem_of_grid_set.
Qed.

Lemma reveal_safe_keeps st row col st' :
  reachable st → in_bounds st (row, col) → revealed st ## mines st →
  reveal st row col = Some (st', true) →
  revealed st' ## mines st'.
Proof.
  intros Hreach Hin Hdis
    [(_ & -> & _)|[(_ & _ & _ & _ & [=])|(Hf & Hr & Hm & Hloop & _)]]%reveal_cases;
    [done|].
  pose proof (reachable_wf _ Hreach) as Hwf.
  apply reveal_loop_start in Hloop as [Hsame Hrev].
  destruct Hsame as (_ & _ & _ & -> & _).
  intros c [Hc|Hc]%Hrev Hcm; [by apply (Hdis c)|].
  by apply (reach_from_safe st (row, col) c).
Qed.

Lemma reveal_unsafe st row col st' :
  revealed st ## mines st →
  reveal st row col = Some (st', false) →
  (row, col) ∈ mines st' ∧ revealed st' ∩ mines st' = {[ (row, col) ]}.
Proof.
  intros Hdis
    [(_ & _ & [=])|[(Hf & Hr & Hm & -> & _)|(_ & _ & _ & _ & [=])]]%reveal_cases.
  simpl. split; [done|]. apply set_eq. intros c.
  rewrite elem_of_intersection, elem_of_union, !elem_of_singleton.
  split; [intros [[->|Hc] Hcm]; [done|by destruct (Hdis c)]|].
  intros ->. tauto.
Qed.

Lemma in_range_in_bounds st row col :
  (0 <=? row) && (row <? rows st) && (0 <=? col) && (col <? cols st) = true →
  in_bounds st (row, col).
Proof.
  rewrite !andb_true_iff, !Z.leb_le, !Z.ltb_lt. unfold in_bounds. simpl. lia.
Qed.

Lemma toggle_flag_playing st row col :
  playing st → in_bounds st (row, col) → playing (toggle_flag st row col).
Proof.
  intros (Hreach & Hdis & Hwon) Hin.
  split_and!; [by apply reachable_toggle_flag|..];
    unfold toggle_flag; by repeat case_bool_decide.
Qed.

Lemma turn_playing int st line :
  playing st →
  match turn int st line with
  | Continue _ st' => playing st'
  | Stop _ Quit st' => st' = st
  | Stop _ Won st' =>
      reachable st' ∧ revealed st' ## mines st' ∧ is_won st' = true
  | Stop _ Lost st' =>
      reachable st' ∧
      ∃ c, c ∈ mines st' ∧ revealed st' ∩ mines st' = {[ c ]}
  | Stop _ _ _ => False
  end.
Proof.
  intros Hplay. pose proof Hplay as (Hreach & Hdis & Hwon). unfold turn.
  case_bool_decide; [done|]. case_bool_decide; [done|].
  destruct (PyStr.split _) as [|a [|rt [|ct [|??]]]]; try done.
  destruct (negb _); [done|].
  destruct (int rt) as [row|]; [|done].
  destruct (int ct) as [col|]; [|done].
  destruct (_ && _) eqn:Hrange; simpl; [|done].
  apply in_range_in_bounds in Hrange.
  case_bool_decide; [by apply toggle_flag_playing|].
  destruct (reveal_is_Some st row col) as [[st' safe] Hrev].
  rewrite Hrev.
  assert (reachable st') as Hreach' by by eapply reachable_reveal.
  destruct safe; simpl.
  - pose proof (reveal_safe_keeps _ _ _ _ Hreach Hrange Hdis Hrev).
    destruct (is_won st') eqn:Hw; done.
  - split; [done|]. exists (row, col). by eapply reveal_unsafe.
Qed.

Lemma play_playing int st lines :
  playing st →
  match play int st lines with
  | (_, Won, fin) =>
      reachable fin ∧ revealed fin ## mines fin ∧ is_won fin = true
  | (_, Lost, fin) =>
      reachable fin ∧ ∃ c, c ∈ mines fin ∧ revealed fin ∩ mines fin = {[ c ]}
  | (_, Quit, fin) | (_, EndOfInput, fin) => playing fin
  | _ => False
  end.
Proof.
  revert st. induction lines as [|line lines IH]; intros st Hplay; [done|].
  simpl. pose proof (turn_playing int st line Hplay) as Hturn.
  destruct (turn int st line) as [out st'|out res st'].
  - specialize (IH st' Hturn).
    by destruct (play int st' lines) as [[outs res] fin].
  - destruct res; try done. by subst.
Qed.

Lemma board_hides_mines st : hides_mines (board st false).
Proof.
  unfold board, hides_mines, display. intros [H|H]%elem_of_app.
  { by apply list_elem_of_singleton in H. }
  apply PyStr.elem_of_join in H as [H|(line & Hline & H)].
  - by apply list_elem_of_singleton in H.
  - by apply (display_lines_no_star st line).
Qed.

Lemma turn_outputs int st line :
  match turn int st line with
  | Continue out _ => Forall hides_mines out
  | Stop out res _ =>
      match res with
      | Won | Lost => length out = 2%nat
      | _ => Forall hides_mines out
      end
  end.
Proof.
  assert (∀ m, Forall hides_mines [Say m]) as Hsay
    by (intros m; by apply Forall_cons).
  unfold turn. cbv zeta.
  repeat first
    [ apply Forall_nil | apply Hsay | done
    | progress simpl
    | match goal with
      | |- context [@bool_decide ?P ?d] => destruct (@bool_decide P d)
      | |- context [PyStr.split ?c] =>
          destruct (PyStr.split c) as [|? [|? [|? [|??]]]]
      | |- context [int ?t] => destruct (int t)
      | |- context [negb ?b] => destruct b
      | |- context [reveal ?s ?r ?c] => destruct (reveal s r c) as [[? []]|]
      | |- context [is_won ?s] => destruct (is_won s)
      end ].
Qed.

Lemma play_outputs int st lines :
  let '(outs, res, _) := play int st lines in
  Forall hides_mines (before_end res outs) ∧
  match res with Won | Lost => (2 ≤ length outs)%nat | _ => True end.
Proof.
  revert st. induction lines as [|line lines IH]; intros st.
  { simpl. split; [|done].
    repeat constructor. apply board_hides_mines. }
  simpl. pose proof (turn_outputs int st line) as Hturn.
  pose proof (board_hides_mines st) as Hb.
  destruct (turn int st line) as [out st'|out res st'].
  - specialize (IH st').
    destruct (play int st' lines) as [[outs res] fin]. destruct IH as [IH Hlen].
    assert (Forall hides_mines (board st false :: AskMove :: out)) as Hpre
      by (repeat constructor; done).
    change (board st false :: AskMove :: out ++ outs)
      with ((board st false :: AskMove :: out) ++ outs).
    unfold before_end in *.
    destruct res; try (split; [by apply Forall_app|done]);
      (split; [|rewrite length_app; lia]);
      rewrite length_app, take_app_ge by lia;
      (apply Forall_app; split; [done|]);
      (replace (length (board st false :: AskMove :: out) + length outs - 2
                - length (board st false :: AskMove :: out))%nat
         with (length outs - 2)%nat by lia); done.
  - unfold before_end.
    destruct res; try (split; [repeat constructor; done|done]);
      (split; [|simpl; lia]);
      destruct out as [|o1 [|o2 [|??]]]; try done; simpl;
      repeat constructor; done.
Qed.

(** However [main] ends, the engine was only ever called on cells of
    the grid, and the verdict is right: after "won" every safe cell is
    revealed and no mine is; after "lost" exactly one mine is revealed;
    and a game that was quit or ran out of input was neither won nor
    lost.  [reveal] never runs out of fuel. *)
Theorem main_outcome_sound int sample lines outs res fin :
  valid_sampler sample →
  main int sample lines = (outs, res, fin) →
  res ≠ Stuck ∧
  (∀ st, fin = Some st → reachable st) ∧
  (res = Won →
   ∃ st, fin = Some st ∧
         ∀ c, in_bounds st c → (c ∈ revealed st ↔ (c ∉ mines st))) ∧
  (res = Lost →
   ∃ st c, fin = Some st ∧ c ∈ mines st ∧
           revealed st ∩ mines st = {[ c ]}) ∧
  (res = Quit ∨ res = EndOfInput →
   ∀ st, fin = Some st → revealed st ## mines st ∧ is_won st = false) ∧
  (res = BadInput ∨ res = BadParameters → fin = None).
Proof.
  intros Hsample. unfold main.
  destruct lines as [|first lines].
  { intros [= <- <- <-]. split_and!; try done; naive_solver. }
  destruct (parse_dimensions int first (9, 9, 10)) as [e|[[r c] m]].
  { intros [= <- <- <-]. split_and!; try done; naive_solver. }
  destruct (new r c m (sample (r * c) m)) as [e|game] eqn:Hnew.
  { intros [= <- <- <-]. split_and!; try done; naive_solver. }
  assert (playing game) as Hplay.
  { destruct (new_inr _ _ _ _ _ Hnew) as (Hr & Hc & Hm & _ & _ & _ & Erev & _).
    split_and!.
    - eapply reachable_new; [|exact Hnew]. apply Hsample. lia.
    - rewrite Erev. set_solver.
    - by eapply fresh_not_won. }
  pose proof (play_playing int game lines Hplay) as Hfin.
  destruct (play int game lines) as [[outs' res'] fin'].
  intros [= <- <- <-].
  destruct res'; try done; split_and!; try done; try naive_solver.
  - intros st [= <-]. by destruct Hfin as [? _].
  - intros _ st [= <-]. by destruct Hfin as (_ & ? & ?).
  - intros _. destruct Hfin as (Hreach & Hdis & Hwon). exists fin'.
    split; [done|]. intros c0 Hc0. split.
    + intros Hcr Hcm. by apply (Hdis c0).
    + apply (won_all_safe fin'); try done. by apply reachable_wf.
  - intros st [= <-]. by destruct Hfin as [? _].
  - intros _ st [= <-]. by destruct Hfin as (_ & ? & ?).
Qed.

Lemma valid_first_indices : valid_sampler first_indices.
Proof.
  intros n k Hk. unfold first_indices. split_and!.
  - apply NoDup_seqZ.
  - rewrite length_seqZ. lia.
  - intros i Hi%elem_of_seqZ. lia.
Qed.

Lemma main_outcome_sound_witness :
  ∃ st,
    (main int_digits first_indices [PyStr.lit "1 2 1"; PyStr.lit "r 0 1"]).2
      = Some st ∧
    ∀ c, in_bounds st c → (c ∈ revealed st ↔ (c ∉ mines st)).
Proof.
  destruct (main int_digits first_indices
              [PyStr.lit "1 2 1"; PyStr.lit "r 0 1"])
    as [[outs res] fin] eqn:E.
  destruct (main_outcome_sound _ _ _ _ _ _ valid_first_indices E)
    as (_ & _ & Hwon & _).
  vm_compute in E. injection E as <- <- <-.
  destruct Hwon as (st & Hst & Hall); [done|].
  exists st. split; [by rewrite Hst|done].
Defined.

Lemma main_prefix_hides m :
  Forall hides_mines [Say Welcome; AskDimensions; Say m].
Proof. repeat (apply Forall_cons_2; [exact I|]). apply Forall_nil_2. Qed.

(** Until the game is over the driver shows no mine: every board that
    [main] prints contains no star, except the final board of a won or
    lost game (printed with [show_mines=True] just before the closing
    message). *)
Theorem main_hides_mines int sample lines outs res fin :
  main int sample lines = (outs, res, fin) →
  Forall hides_mines (before_end res outs).
Proof.
  unfold main. destruct lines as [|first lines].
  { intros [= <- <- <-]. simpl.
    repeat (apply Forall_cons_2; [exact I|]). apply Forall_nil_2. }
  destruct (parse_dimensions int first (9, 9, 10)) as [e|[[r c] m]].
  { intros [= <- <- <-]. apply main_prefix_hides. }
  destruct (new r c m (sample (r * c) m)) as [e|game].
  { intros [= <- <- <-]. apply main_prefix_hides. }
  pose proof (play_outputs int game lines) as Hplay.
  destruct (play int game lines) as [[outs' res'] fin'].
  destruct Hplay as [Hhide Hlen]. intros [= <- <- <-].
  assert (∀ l, Forall hides_mines l →
               Forall hides_mines (Say Welcome :: AskDimensions :: l)) as Hpre.
  { intros l Hl. repeat (apply Forall_cons_2; [exact I|]). exact Hl. }
  unfold before_end in *.
  destruct res'; try (by apply Hpre);
    (replace (length (Say Welcome :: AskDimensions :: outs') - 2)%nat
       with (S (S (length outs' - 2))) by (simpl; lia));
    simpl; by apply Hpre.
Qed.

Lemma main_hides_mines_witness :
  Forall hides_mines
    (take 4 (main int_digits first_indices
               [PyStr.lit "1 2 1"; PyStr.lit "r 0 0"]).1.1).
Proof.
  destruct (main int_digits first_indices
              [PyStr.lit "1 2 1"; PyStr.lit "r 0 0"])
    as [[outs res] fin] eqn:E.
  pose proof (main_hides_mines _ _ _ _ _ _ E) as H.
  vm_compute in E. injection E as <- <- <-. exact H.
Defined.

(** A line the driver rejects (blank, not three fields, an action other
    than r or f, fields [int] refuses, or a cell outside the grid) has no
    effect on the game: the outcome and the final state are those of the
    remaining lines alone. *)
Theorem play_skips_rejected_line int st line lines :
  let command := PyStr.lower (PyStr.strip line) in
  command ≠ PyStr.lit "q" →
  (∀ a row_text col_text row col,
     PyStr.split command = [a; row_text; col_text] →
     a = PyStr.lit "r" ∨ a = PyStr.lit "f" →
     int row_text = Some row → int col_text = Some col →
     ¬ in_bounds st (row, col)) →
  (play int st (line :: lines)).1.2 = (play int st lines).1.2 ∧
  (play int st (line :: lines)).2 = (play int st lines).2.
Proof.
  intros command Hq Hrej.
  assert (∃ out, turn int st line = Continue out st) as [out Hturn].
  { unfold turn. fold command.
    case_bool_decide as H1; [by eexists|].
    rewrite bool_decide_eq_false_2 by done.
    destruct (PyStr.split command) as [|a [|rt [|ct [|??]]]] eqn:Hs;
      try by eexists.
    destruct (negb _) eqn:Ha; [by eexists|].
    apply negb_false_iff, orb_true_iff in Ha.
    rewrite !bool_decide_eq_true in Ha.
    destruct (int rt) as [row|] eqn:Hrow; [|by eexists].
    destruct (int ct) as [col|] eqn:Hcol; [|by eexists].
    destruct (_ && _) eqn:Hrange; simpl; [|by eexists].
    apply in_range_in_bounds in Hrange.
    by destruct (Hrej a rt ct row col). }
  simpl. rewrite Hturn.
  by destruct (play int st lines) as [[outs res] fin].
Qed.

Lemma play_skips_rejected_line_witness :
  (play int_digits board_1x2
     [PyStr.lit "R" ++ ["160"%char] ++ PyStr.lit "0 7"; PyStr.lit "q"]).1.2
  = Quit.
Proof.
  destruct (play_skips_rejected_line int_digits board_1x2
              (PyStr.lit "R" ++ ["160"%char] ++ PyStr.lit "0 7")
              [PyStr.lit "q"]) as [H _].
  - by vm_compute.
  - intros a rt ct row col Hs _ Hrow Hcol.
    vm_compute in Hs. injection Hs as <- <- <-.
    vm_compute in Hrow, Hcol. injection Hrow as <-. injection Hcol as <-.
    unfold in_bounds. simpl. lia.
  - rewrite H. by vm_compute.
Defined.

(** [parse_dimensions] ignores the whitespace around its text, and a
    blank text (empty or whitespace only) gives the default. *)
Theorem parse_dimensions_whitespace int text default :
  (PyStr.blank text → parse_dimensions int text default = inr default) ∧
  ∀ ws1 ws2, PyStr.blank ws1 → PyStr.blank ws2 →
    parse_dimensions int (ws1 ++ text ++ ws2) default
    = parse_dimensions int text default.
Proof.
  split.
  - intros Hb%PyStr.strip_blank. unfold parse_dimensions.
    by rewrite bool_decide_eq_true_2.
  - intros ws1 ws2 H1 H2. unfold parse_dimensions.
    by rewrite PyStr.strip_pad.
Qed.

(** On a text that is not blank, [parse_dimensions] succeeds exactly
    when the text has three whitespace-separated fields that [int]
    accepts, and then returns their values in order; it fails with the
    error of line 102 exactly when the number of fields is not three.
    The fields handed to [int] are non-empty and free of whitespace. *)
Theorem parse_dimensions_fields int text default :
  ¬ PyStr.blank text →
  Forall PyStr.token (PyStr.split text) ∧
  (∀ v, parse_dimensions int text default = inr v ↔
        ∃ a b c, PyStr.split text = [a; b; c] ∧
                 int a = Some v.1.1 ∧ int b = Some v.1.2 ∧ int c = Some v.2) ∧
  (parse_dimensions int text default = inl WrongFieldCount ↔
     length (PyStr.split text) ≠ 3%nat).
Proof.
  intros Hnb. split; [apply PyStr.split_tokens|].
  unfold parse_dimensions.
  rewrite bool_decide_eq_false_2 by by rewrite PyStr.strip_blank.
  rewrite PyStr.split_strip.
  destruct (PyStr.split text) as [|a [|b [|c [|??]]]];
    try (split; [intros v; split; [done|by intros (?&?&?&?&_)]|done]).
  destruct (int a) as [x|] eqn:Ha, (int b) as [y|] eqn:Hb,
           (int c) as [z|] eqn:Hc;
    (split; [intros [[v1 v2] v3]; simpl; split;
             [intros [=]; subst; by eexists _, _, _
             |intros (?&?&?&[=]&?&?&?); subst; congruence]
            |done]).
Qed.

Lemma parse_dimensions_fields_witness :
  parse_dimensions int_digits
    (PyStr.lit " 3" ++ ["160"%char] ++ PyStr.lit " 4 5") (9, 9, 10)
  = inr (3, 4, 5).
Proof.
  destruct (parse_dimensions_fields int_digits
              (PyStr.lit " 3" ++ ["160"%char] ++ PyStr.lit " 4 5")
              (9, 9, 10)) as (_ & H & _).
  - intros Hb%PyStr.strip_blank. by vm_compute in Hb.
  - apply H. by exists (PyStr.lit "3"), (PyStr.lit "4"), (PyStr.lit "5").
Defined.

(** ** The order of reveals *)

Lemma state_eq st st' :
  same_board st st' → revealed st' = revealed st → st' = st.
Proof.
  destruct st, st'. unfold same_board. simpl.
  intros (-> & -> & -> & -> & -> & -> & _) ->. done.
Qed.

Lemma reveal_effect st row col st1 r :
  reveal st row col = Some (st1, r) →
  same_board st st1 ∧
  (∀ x, x ∈ revealed st1 ↔ x ∈ revealed st ∨ effect st (row, col) x) ∧
  (r = false ↔ (row, col) ∈ mines st ∧ covered st (row, col)).
Proof.
  unfold effect, covered.
  intros [(Hg & -> & ->)|[(Hf & Hr & Hm & -> & ->)|(Hf & Hr & Hm & Hloop & ->)]]%reveal_cases.
  - split_and!; [apply same_board_refl| |split; [done|tauto]].
    intros x. split; [by left|]. intros [?|[(_ & ? & _)|[_ Hx]]]; [done|tauto|].
    apply reach_from_source in Hx. tauto.
  - split_and!; [apply same_board_with_revealed| |tauto]. simpl.
    intros x. rewrite elem_of_union, elem_of_singleton. split.
    + intros [->|?]; [right; left|left]; done.
    + intros [?|[(_ & _ & ->)|[? _]]]; tauto.
  - apply reveal_loop_start in Hloop as [Hsame Hrev].
    split_and!; [done| |split; [done|tauto]].
    intros x. rewrite Hrev. split; [|tauto].
    intros [?|?]; [by left|right; right; done].
Qed.

Lemma reach_from_mono st st1 s d :
  same_board st st1 → reach_from st1 s d → reach_from st s d.
Proof.
  intros (Hr & Hc & _ & _ & Hfl & Hnc & Hsub).
  assert (∀ c, count_at st1 c = count_at st c) as Hcount
    by (intros c; unfold count_at; by rewrite Hnc).
  assert (∀ r c, neighbors st1 r c = neighbors st r c) as Hn
    by (intros r c; unfold neighbors; by rewrite Hr, Hc).
  induction 1 as [Hrv Hf|x y _ IH Hz Hxy Hrv Hf].
  - apply reach_here; [set_solver|by rewrite <- Hfl].
  - eapply reach_step; [exact IH|by rewrite <- Hcount|by rewrite <- Hn|
                        set_solver|by rewrite <- Hfl].
Qed.

Lemma reach_from_after st st1 b d :
  wf st → in_bounds st b → (b ∉ mines st) →
  same_board st st1 →
  (∀ c y, c ∈ revealed st1 → (c ∉ revealed st) → (c ∉ mines st) →
          count_at st c = 0 → y ∈ neighbors st c.1 c.2 → (y ∉ flags st) →
          y ∈ revealed st1) →
  reach_from st b d → d ∈ revealed st1 ∨ reach_from st1 b d.
Proof.
  intros Hwf Hb Hbm Hsame Hclosed.
  pose proof Hsame as (Hr & Hc & _ & _ & Hfl & Hnc & Hsub).
  assert (∀ c, count_at st1 c = count_at st c) as Hcount
    by (intros c; unfold count_at; by rewrite Hnc).
  assert (∀ r c, neighbors st1 r c = neighbors st r c) as Hn
    by (intros r c; unfold neighbors; by rewrite Hr, Hc).
  induction 1 as [Hrv Hf|x y Hbx IH Hz Hxy Hrv Hf].
  - destruct (decide (b ∈ revealed st1)); [by left|right].
    apply reach_here; [done|by rewrite Hfl].
  - destruct (decide (y ∈ revealed st1)) as [|Hy]; [by left|right].
    destruct IH as [Hx|Hx].
    + exfalso. apply Hy. apply (Hclosed x y); try done.
      * by apply reach_from_target in Hbx as [? _].
      * by eapply reach_from_safe.
    + eapply reach_step; [exact Hx|by rewrite Hcount|by rewrite Hn|done|
                          by rewrite Hfl].
Qed.

Lemma effect_after st a b st1 r x :
  wf st → in_bounds st a → in_bounds st b →
  reveal st a.1 a.2 = Some (st1, r) →
  (x ∈ revealed st1 ∨ effect st1 b x) ↔ (x ∈ revealed st1 ∨ effect st b x).
Proof.
  intros Hwf Ha Hb Hrev. destruct a as [ra ca]. simpl in Hrev.
  destruct (reveal_effect _ _ _ _ _ Hrev) as (Hsame & Hrv & Hr).
  pose proof Hsame as (_ & _ & _ & Hm & Hfl & _ & Hsub).
  unfold effect, covered. rewrite Hm, Hfl. split.
  - intros [?|[(Hbm & [Hbr Hbf] & ->)|[Hbm Hx]]]; [by left| |].
    + right; left. split_and!; try done. set_solver.
    + right; right. split; [done|]. by eapply reach_from_mono.
  - intros [?|[(Hbm & [Hbr Hbf] & ->)|[Hbm Hx]]]; [by left| |].
    + destruct (decide (b ∈ revealed st1)); [by left|].
      right; left. done.
    + destruct (reach_from_after st st1 b x) as [?|?]; try done;
        [|by left|right; right; done].
      intros c y Hc1 Hc0 Hcm Hz Hy Hyf. apply Hrv.
      apply Hrv in Hc1 as [?|[(? & _ & ->)|[Ham Hc1]]]; [done|done|].
      destruct (decide (y ∈ revealed st)); [by left|].
      right; right. split; [done|]. by eapply reach_step.
Qed.

(** Two [reveal]s on different cells of the grid can be made in either
    order: the results of the two calls and the final state are the
    same. *)
Theorem reveal_commutes st ra ca rb cb st1 r1 st2 r2 :
  reachable st → in_bounds st (ra, ca) → in_bounds st (rb, cb) →
  (ra, ca) ≠ (rb, cb) →
  reveal st ra ca = Some (st1, r1) →
  reveal st1 rb cb = Some (st2, r2) →
  ∃ st1', reveal st rb cb = Some (st1', r2) ∧
          reveal st1' ra ca = Some (st2, r1).
Proof.
  intros Hreach Ha Hb Hab Ha1 Hb2.
  pose proof (reachable_wf _ Hreach) as Hwf.
  destruct (reveal_is_Some st rb cb) as [[st1' r2'] Hb1].
  destruct (reveal_is_Some st1' ra ca) as [[st2' r1'] Ha2].
  destruct (reveal_effect _ _ _ _ _ Ha1) as (Hs1 & Hv1 & Hr1).
  destruct (reveal_effect _ _ _ _ _ Hb2) as (Hs2 & Hv2 & Hr2).
  destruct (reveal_effect _ _ _ _ _ Hb1) as (Hs1' & Hv1' & Hr2').
  destruct (reveal_effect _ _ _ _ _ Ha2) as (Hs2' & Hv2' & Hr1').
  assert (in_bounds st1 (rb, cb)) as Hb'
    by (destruct Hs1 as (? & ? & _); by apply (in_bounds_ext st st1)).
  assert (in_bounds st1' (ra, ca)) as Ha'
    by (destruct Hs1' as (? & ? & _); by apply (in_bounds_ext st st1')).
  (* the final revealed sets *)
  assert (∀ x, x ∈ revealed st2 ↔
               x ∈ revealed st ∨ effect st (ra, ca) x ∨ effect st (rb, cb) x)
    as He2.
  { intros x. rewrite Hv2.
    rewrite (effect_after st (ra, ca) (rb, cb) st1 r1 x) by done.
    rewrite Hv1. tauto. }
  assert (∀ x, x ∈ revealed st2' ↔
               x ∈ revealed st ∨ effect st (ra, ca) x ∨ effect st (rb, cb) x)
    as He2'.
  { intros x. rewrite Hv2'.
    rewrite (effect_after st (rb, cb) (ra, ca) st1' r2' x) by done.
    rewrite Hv1'. tauto. }
  (* a mine is only revealed by its own call *)
  assert (∀ s d, in_bounds st s → effect st s d → d ∈ mines st → d = s)
    as Hmine.
  { intros s d Hs [(_ & _ & ->)|[Hsm Hd]] Hdm; [done|].
    by apply (reach_from_safe st s d) in Hd. }
  assert (r2' = r2) as ->.
  { pose proof Hs1 as (_ & _ & _ & Hm1 & Hf1 & _).
    destruct r2, r2'; try done.
    - destruct (proj1 Hr2' eq_refl) as [Hbm [Hbr Hbf]].
      assert (true = false) as Habs; [|done]. apply Hr2.
      unfold covered. rewrite Hm1, Hf1. split_and!; try done.
      intros [?|He]%Hv1; [done|].
      apply (Hmine (ra, ca) (rb, cb)) in He; [congruence|done..].
    - destruct (proj1 Hr2 eq_refl) as [Hbm [Hbr Hbf]].
      assert (true = false) as Habs; [|done]. apply Hr2'.
      unfold covered. rewrite <- Hm1, <- Hf1. split_and!; try done.
      intros ?. apply Hbr. by apply Hs1. }
  assert (r1' = r1) as ->.
  { pose proof Hs1' as (_ & _ & _ & Hm1 & Hf1 & _).
    destruct r1, r1'; try done.
    - destruct (proj1 Hr1' eq_refl) as [Hbm [Hbr Hbf]].
      assert (true = false) as Habs; [|done]. apply Hr1.
      unfold covered. rewrite <- Hm1, <- Hf1. split_and!; try done.
      intros ?. apply Hbr. by apply Hs1'.
    - destruct (proj1 Hr1 eq_refl) as [Hbm [Hbr Hbf]].
      assert (true = false) as Habs; [|done]. apply Hr1'.
      unfold covered. rewrite Hm1, Hf1. split_and!; try done.
      intros [?|He]%Hv1'; [done|].
      apply (Hmine (rb, cb) (ra, ca)) in He; [congruence|done..]. }
  exists st1'. split; [done|]. rewrite Ha2. do 2 f_equal.
  assert (same_board st st2) as Hst2
    by exact (same_board_trans _ _ _ Hs1 Hs2).
  assert (same_board st st2') as Hst2'
    by exact (same_board_trans _ _ _ Hs1' Hs2').
  destruct st2 as [? ? ? ? rv2 ? ?], st2' as [? ? ? ? rv2' ? ?].
  destruct Hst2 as (? & ? & ? & ? & ? & ? & _).
  destruct Hst2' as (? & ? & ? & ? & ? & ? & _). simpl in *. subst.
  f_equal. apply set_eq. intros x. by rewrite He2, He2'.
Qed.

Lemma reveal_commutes_witness :
  ∃ st1' st2,
    reveal board_1x2_hit 0 1 = Some (st2, true) ∧
    reveal board_1x2 0 1 = Some (st1', true) ∧
    reveal st1' 0 0 = Some (st2, false).
Proof.
  pose (st2 := State 1 2 1 {[ (0, 0) ]} {[ (0, 0); (0, 1) ]} ∅
                     {[ (0, 1) := 1 ]}).
  assert (reveal board_1x2_hit 0 1 = Some (st2, true)) as H2
    by (vm_compute; reflexivity).
  destruct (reveal_commutes board_1x2 0 0 0 1 board_1x2_hit false st2 true
              reachable_board_1x2 in_bounds_1x2_mine in_bounds_1x2_safe)
    as (st1' & H1' & H2'); [done|apply reveal_1x2_mine|exact H2|].
  by exists st1', st2.
Defined.

End Minesweeper.

(** * The S-parameter merger (src/merge_sparams.py)

    The functions of the script that work on file names and text lines;
    [load_sparams], [merge_group] and the writing of the result go
    through pandas and the file system and are not modelled. *)
Module MergeSparams.

(** ** [find_header_index] *)

(** The test of line 30: [line.strip().startswith("Freq(Hz)")]. *)
Definition is_header (line : PyStr.str) : bool :=
  PyStr.startswith (PyStr.lit "Freq(Hz)") (PyStr.strip line).

(** The loop over [enumerate(lines)] from index [idx] on; [None] stands
    for the [ValueError] of line 32. *)
Fixpoint find_header_from (idx : nat) (lines : list PyStr.str) : option nat :=
  match lines with
  | [] => None
  | line :: lines =>
    if is_header line then Some idx else find_header_from (S idx) lines
  end.

Definition find_header_index (lines : list PyStr.str) : option nat :=
  find_header_from 0 lines.

(** ** [detect_prefix] *)

(** [s] contains [pat]. *)
Fixpoint contains (pat s : PyStr.str) : bool :=
  PyStr.startswith pat s ||
  match s with
  | [] => false
  | _ :: s' => contains pat s'
  end.

(** [re.compile(word, re.IGNORECASE).search(s)] for a lower-case word
    without special characters: among the code points 0 to 255 the
    characters that match a letter whatever the case are those that
    [lower] sends to it. *)
Definition search_ignorecase (word s : PyStr.str) : bool :=
  contains word (PyStr.lower s).

(** The dictionary [PREFIX_PATTERNS], in insertion order: each prefix
    with the word of its pattern. *)
Definition PREFIX_PATTERNS : list (PyStr.str * PyStr.str) :=
  [ (PyStr.lit "long", PyStr.lit "long");
    (PyStr.lit "short", PyStr.lit "short");
    (PyStr.lit "thru", PyStr.lit "thru") ].

Fixpoint first_match (patterns : list (PyStr.str * PyStr.str))
    (filename : PyStr.str) : option PyStr.str :=
  match patterns with
  | [] => None
  | (prefix, word) :: patterns =>
    if search_ignorecase word filename then Some prefix
    else first_match patterns filename
  end.

Definition detect_prefix (filename : PyStr.str) : option PyStr.str :=
  first_match PREFIX_PATTERNS filename.

(** ** [detect_group] *)

(** The longest run of digits at the start of a text, and what follows. *)
Fixpoint span_digits (s : PyStr.str) : PyStr.str * PyStr.str :=
  match s with
  | a :: s' =>
    if PyStr.isdigit a
    then let '(ds, rest) := span_digits s' in (a :: ds, rest)
    else ([], s)
  | [] => ([], [])
  end.

(** The lookahead [(?=\.[^.]+$)]: a dot, then at least one character,
    none of them a dot, up to the end. *)
Definition is_extension (s : PyStr.str) : bool :=
  match s with
  | a :: ext =>
    bool_decide (a = "."%char) && bool_decide (ext ≠ []) &&
    forallb (λ b, bool_decide (b ≠ "."%char)) ext
  | [] => false
  end.

(** [re.search(r"(\d+)(?=\.[^.]+$)", s)]: the first position from which
    a run of digits is followed by the extension; only the whole run
    can be, since a shorter one is followed by a digit. *)
Fixpoint search_group (s : PyStr.str) : option PyStr.str :=
  let '(ds, rest) := span_digits s in
  if bool_decide (ds ≠ []) && is_extension rest then Some ds
  else
    match s with
    | [] => None
    | _ :: s' => search_group s'
    end.

Definition detect_group (filename : PyStr.str) : PyStr.str :=
  match search_group filename with
  | Some group => group
  | None => filename
  end.

(** ** The grouping of [main] (lines 112 to 118) *)

(** One iteration: [grouped.setdefault(group, []).append(path)] for a
    file with a prefix; a file is given by its name. *)
Definition add_file (grouped : gmap PyStr.str (list PyStr.str))
    (name : PyStr.str) : gmap PyStr.str (list PyStr.str) :=
  match detect_prefix name with
  | None => grouped
  | Some _ =>
    let group := detect_group name in
    <[ group := default [] (grouped !! group) ++ [name] ]> grouped
  end.

Definition group_files (names : list PyStr.str)
  : gmap PyStr.str (list PyStr.str) :=
  foldl add_file ∅ names.

(** ** Notions used to state the properties *)

(** A header line: optional whitespace, then [Freq(Hz)], then anything. *)
Definition header_line (line : PyStr.str) : Prop :=
  ∃ ws rest, PyStr.blank ws ∧ line = ws ++ PyStr.lit "Freq(Hz)" ++ rest.

(** [word] occurs in [s], in whatever case. *)
Definition occurs_ignorecase (word s : PyStr.str) : Prop :=
  ∃ pre mid post, s = pre ++ mid ++ post ∧ PyStr.lower mid = word.

(** [group] is the number of the file name: the digits that end its
    stem, before the last dot and a non-empty extension. *)
Definition numbered (filename group : PyStr.str) : Prop :=
  ∃ stem ext,
    filename = stem ++ group ++ "."%char :: ext ∧
    group ≠ [] ∧ Forall (λ a, PyStr.isdigit a = true) group ∧
    (∀ a, last stem = Some a → PyStr.isdigit a = false) ∧
    ext ≠ [] ∧ ("."%char ∉ ext).

(** The files of a group: those with a prefix whose group is [group]. *)
Definition in_group (group name : PyStr.str) : Prop :=
  is_Some (detect_prefix name) ∧ detect_group name = group.

Global Instance in_group_dec group name : Decision (in_group group name).
Proof. unfold in_group. apply _. Defined.

(** ** Properties *)

Lemma startswith_spec p s :
  PyStr.startswith p s = true ↔ ∃ r, s = p ++ r.
Proof.
  revert s. induction p as [|a p IH]; intros s; simpl.
  { split; [by exists s|done]. }
  destruct s as [|b s]; [split; [done|by intros [? ?]]|].
  rewrite andb_true_iff, bool_decide_eq_true, IH. split.
  - intros [-> [r ->]]. by exists r.
  - intros [r [= -> ->]]. split; [done|by exists r].
Qed.

Lemma lstrip_nonspace a s : PyStr.isspace a = false → PyStr.lstrip (a :: s) = a :: s.
Proof. simpl. by intros ->. Qed.

Lemma rstrip_app_keep p s :
  PyStr.rstrip p = p → p ≠ [] → ∃ r, PyStr.rstrip (p ++ s) = p ++ r.
Proof.
  intros Hp Hne. destruct (decide (PyStr.rstrip s = [])) as [E|E].
  - exists []. destruct (PyStr.rstrip_decomp s) as (ws & Hws & Hs).
    rewrite E in Hs. simpl in Hs. subst s.
    by rewrite PyStr.rstrip_app_blank, app_nil_r.
  - exists (PyStr.rstrip s). by apply PyStr.rstrip_app_nonblank.
Qed.

Lemma is_header_spec line : is_header line = true ↔ header_line line.
Proof.
  unfold is_header, header_line. rewrite startswith_spec. split.
  - intros [r Hr].
    destruct (PyStr.strip_decomp line) as (ws1 & ws2 & H1 & H2 & Hline).
    exists ws1, (r ++ ws2). split; [done|].
    rewrite Hline at 1. rewrite Hr. by rewrite <- !app_assoc.
  - intros (ws & rest & Hws & ->).
    rewrite <- (app_nil_r (PyStr.lit "Freq(Hz)" ++ rest)).
    rewrite PyStr.strip_pad by (done || constructor).
    unfold PyStr.strip.
    destruct (rstrip_app_keep (PyStr.lit "Freq(Hz)") rest) as [r Hr];
      [by vm_compute|done|].
    rewrite Hr. exists r. by vm_compute.
Qed.

Lemma find_header_from_spec idx lines i :
  find_header_from idx lines = Some i ↔
  ∃ k, i = (idx + k)%nat ∧
       (∃ line, lines !! k = Some line ∧ is_header line = true) ∧
       ∀ j line, (j < k)%nat → lines !! j = Some line → is_header line = false.
Proof.
  revert idx. induction lines as [|line lines IH]; intros idx; simpl.
  { split; [done|]. by intros (k & _ & (? & ? & _) & _). }
  destruct (is_header line) eqn:Hh.
  - split.
    + intros [= <-]. exists 0%nat. split_and!; [lia|by exists line|intros; lia].
    + intros (k & -> & Hk & Hmin). destruct k as [|k]; [f_equal; lia|].
      specialize (Hmin 0%nat line). simpl in Hmin.
      rewrite Hh in Hmin. discriminate Hmin; [lia|done].
  - rewrite IH. split.
    + intros (k & -> & Hk & Hmin). exists (S k). split_and!; [lia|done|].
      intros [|j] l Hj Hl; simpl in Hl; [by injection Hl as <-|].
      apply (Hmin j); [lia|done].
    + intros (k & -> & (l & Hl & Hlh) & Hmin). destruct k as [|k].
      { simpl in Hl. injection Hl as <-. congruence. }
      exists k. split_and!; [lia|by exists l|].
      intros j l' Hj Hl'. apply (Hmin (S j)); [lia|done].
Qed.

Lemma find_header_from_None idx lines :
  find_header_from idx lines = None ↔
  Forall (λ line, is_header line = false) lines.
Proof.
  revert idx. induction lines as [|line lines IH]; intros idx; simpl.
  { split; [constructor|done]. }
  destruct (is_header line) eqn:Hh.
  - split; [done|]. intros H. inversion H; congruence.
  - rewrite IH. split; [by constructor|]. intros H. by inversion H.
Qed.

Example header_after_no_break_space :
  find_header_index
    [PyStr.lit "! S-parameters"; "160"%char :: PyStr.lit "Freq(Hz),S11"]
  = Some 1%nat.
Proof. vm_compute. reflexivity. Qed.

(** [find_header_index] returns the index of the first header line (a
    line that reads [Freq(Hz)] after optional leading whitespace), and
    fails exactly when no line is one. *)
Theorem find_header_index_first lines :
  (∀ i, find_header_index lines = Some i ↔
        (∃ line, lines !! i = Some line ∧ header_line line) ∧
        ∀ j line, (j < i)%nat → lines !! j = Some line → ¬ header_line line) ∧
  (find_header_index lines = None ↔
     ∀ line, line ∈ lines → ¬ header_line line).
Proof.
  assert (∀ i, find_header_index lines = Some i ↔
        (∃ line, lines !! i = Some line ∧ header_line line) ∧
        ∀ j line, (j < i)%nat → lines !! j = Some line → ¬ header_line line)
    as Hsome.
  { intros i. unfold find_header_index. rewrite find_header_from_spec. split.
    - intros (k & -> & (l & Hl & Hh) & Hmin). simpl. split.
      + exists l. split; [done|]. by apply is_header_spec.
      + intros j l' Hj Hl' Hh'%is_header_spec.
        by rewrite (Hmin j l') in Hh'.
    - intros [(l & Hl & Hh) Hmin]. exists i. split_and!; [done| |].
      + exists l. split; [done|]. by apply is_header_spec.
      + intros j l' Hj Hl'. apply not_true_is_false.
        intros Hh'%is_header_spec. by apply (Hmin j l'). }
  split; [done|]. unfold find_header_index.
  rewrite find_header_from_None, Forall_forall.
  split; intros H line Hin.
  - intros Hh%is_header_spec. by rewrite (H line Hin) in Hh.
  - apply not_true_is_false. intros Hh%is_header_spec. by apply (H line).
Qed.

Lemma contains_spec pat s :
  contains pat s = true ↔ ∃ pre post, s = pre ++ pat ++ post.
Proof.
  induction s as [|a s IH].
  - simpl. rewrite orb_false_r, startswith_spec. split.
    + intros [r Hr]. by exists [], r.
    + intros (pre & post & H). destruct pre; [by exists post|done].
  - simpl. rewrite orb_true_iff, startswith_spec, IH. split.
    + intros [[r Hr]|(pre & post & ->)]; [by exists [], r|].
      by exists (a :: pre), post.
    + intros (pre & post & H). destruct pre as [|b pre].
      * left. by exists post.
      * right. injection H as -> ->. by exists pre, post.
Qed.

Lemma search_ignorecase_spec word s :
  search_ignorecase word s = true ↔ occurs_ignorecase word s.
Proof.
  unfold search_ignorecase, occurs_ignorecase. rewrite contains_spec. split.
  - intros (pre & post & H).
    exists (take (length pre) s),
           (take (length word) (drop (length pre) s)),
           (drop (length word) (drop (length pre) s)).
    split; [by rewrite !take_drop|].
    unfold PyStr.lower in *. rewrite fmap_take, fmap_drop, H.
    by rewrite drop_app_length, take_app_length.
  - intros (pre & mid & post & -> & <-).
    exists (PyStr.lower pre), (PyStr.lower post).
    unfold PyStr.lower. by rewrite !fmap_app.
Qed.

(** [detect_prefix] returns the first of long, short and thru that
    occurs in the file name, in whatever case, and nothing exactly when
    none of them occurs. *)
Theorem detect_prefix_first filename :
  let occurs word := occurs_ignorecase (PyStr.lit word) filename in
  (detect_prefix filename = Some (PyStr.lit "long") ↔ occurs "long") ∧
  (detect_prefix filename = Some (PyStr.lit "short") ↔
     ¬ occurs "long" ∧ occurs "short") ∧
  (detect_prefix filename = Some (PyStr.lit "thru") ↔
     ¬ occurs "long" ∧ ¬ occurs "short" ∧ occurs "thru") ∧
  (detect_prefix filename = None ↔
     ¬ occurs "long" ∧ ¬ occurs "short" ∧ ¬ occurs "thru") ∧
  (∀ p, detect_prefix filename = Some p →
        p = PyStr.lit "long" ∨ p = PyStr.lit "short" ∨ p = PyStr.lit "thru").
Proof.
  intros occurs. unfold occurs, detect_prefix, PREFIX_PATTERNS.
  cbn [first_match].
  rewrite <- !search_ignorecase_spec.
  destruct (search_ignorecase (PyStr.lit "long") filename);
    destruct (search_ignorecase (PyStr.lit "short") filename);
    destruct (search_ignorecase (PyStr.lit "thru") filename);
    (split_and!;
     [split;
      [intros H; first [by repeat split
                       |exfalso; vm_compute in H; discriminate H]
      |intros H; first [reflexivity|exfalso; intuition congruence]]..
     |intros p [= <-]; by auto]).
Qed.

Lemma span_digits_app ds rest :
  Forall (λ a, PyStr.isdigit a = true) ds →
  (∀ a, head rest = Some a → PyStr.isdigit a = false) →
  span_digits (ds ++ rest) = (ds, rest).
Proof.
  intros Hds Hrest. induction Hds as [|a ds Ha _ IH]; simpl.
  - destruct rest as [|b rest]; [done|]. simpl. by rewrite (Hrest b).
  - by rewrite Ha, IH.
Qed.

Lemma span_digits_spec s ds rest :
  span_digits s = (ds, rest) →
  s = ds ++ rest ∧ Forall (λ a, PyStr.isdigit a = true) ds ∧
  ∀ a, head rest = Some a → PyStr.isdigit a = false.
Proof.
  revert ds rest. induction s as [|a s IH]; intros ds rest; simpl.
  { intros [= <- <-]. split_and!; [done|constructor|done]. }
  destruct (PyStr.isdigit a) eqn:Ha.
  - destruct (span_digits s) as [ds' rest'].
    intros [= <- <-]. destruct (IH ds' rest' eq_refl) as (-> & Hds & Hrest).
    split_and!; [done|by constructor|done].
  - intros [= <- <-]. split_and!; [done|constructor|].
    simpl. by intros ? [= <-].
Qed.

Lemma is_extension_spec s :
  is_extension s = true ↔
  ∃ ext, s = "."%char :: ext ∧ ext ≠ [] ∧ ("."%char ∉ ext).
Proof.
  destruct s as [|a ext]; simpl.
  { split; [done|by intros (? & ? & _)]. }
  rewrite !andb_true_iff, !bool_decide_eq_true, forallb_forall. split.
  - intros [[-> Hne] Hall]. exists ext. split_and!; [done..|].
    intros Hin%list_elem_of_In. specialize (Hall _ Hin).
    by apply bool_decide_eq_true in Hall.
  - intros (ext' & [= -> <-] & Hne & Hdot). split_and!; [done..|].
    intros b Hb%list_elem_of_In. apply bool_decide_eq_true. by intros ->.
Qed.

(** The dot that starts a dot-free end of a text is its last dot. *)
Lemma last_dot_unique (l1 l2 e1 e2 : PyStr.str) :
  l1 ++ "."%char :: e1 = l2 ++ "."%char :: e2 →
  ("."%char ∉ e1) → ("."%char ∉ e2) → l1 = l2 ∧ e1 = e2.
Proof.
  revert l2. induction l1 as [|a l1 IH]; intros l2 H H1 H2.
  - destruct l2 as [|b l2]; [by injection H as ->|].
    simpl in H. injection H as <- ->. destruct H1.
    apply elem_of_app. right. by left.
  - destruct l2 as [|b l2].
    + simpl in H. injection H as -> <-. destruct H2.
      apply elem_of_app. right. by left.
    + simpl in H. injection H as -> H. destruct (IH l2 H H1 H2) as [-> ->]. done.
Qed.

Lemma digit_not_dot : PyStr.isdigit "."%char = false.
Proof. done. Qed.

Lemma search_group_unfold s :
  search_group s =
    let '(ds, rest) := span_digits s in
    if bool_decide (ds ≠ []) && is_extension rest then Some ds
    else match s with [] => None | _ :: s' => search_group s' end.
Proof. by destruct s. Qed.

Lemma search_group_sound s g : search_group s = Some g → numbered s g.
Proof.
  induction s as [|a s IH]; rewrite search_group_unfold.
  { by vm_compute. }
  destruct (span_digits (a :: s)) as [ds rest] eqn:Hspan.
  destruct (bool_decide (ds ≠ []) && is_extension rest) eqn:Hm.
  - intros [= <-]. apply andb_true_iff in Hm as [Hne Hext].
    apply bool_decide_eq_true in Hne.
    apply is_extension_spec in Hext as (ext & -> & Hext & Hdot).
    apply span_digits_spec in Hspan as (Hs & Hds & _).
    exists [], ext. split_and!; try done.
  - intros Hg. destruct (IH Hg) as (stem & ext & -> & Hne & Hds & Hlast & Hext & Hdot).
    exists (a :: stem), ext. split_and!; try done.
    intros b Hb. destruct stem as [|c stem]; [|by apply Hlast].
    simpl in Hb. injection Hb as <-.
    destruct (PyStr.isdigit a) eqn:Ha; [|done]. exfalso.
    change (a :: [] ++ g ++ "."%char :: ext)
      with ((a :: g) ++ "."%char :: ext) in Hspan.
    rewrite (span_digits_app (a :: g) ("."%char :: ext)) in Hspan.
    + injection Hspan as <- <-.
      apply andb_false_iff in Hm as [Hm|Hm].
      * by apply bool_decide_eq_false in Hm; destruct Hm.
      * assert (is_extension ("."%char :: ext) = true) as E; [|congruence].
        apply is_extension_spec. by exists ext.
    + by constructor.
    + simpl. intros ? [= <-]. apply digit_not_dot.
Qed.

Lemma search_group_complete s g : numbered s g → search_group s = Some g.
Proof.
  intros (stem & ext & -> & Hne & Hds & Hlast & Hext & Hdot).
  induction stem as [|a stem IH]; rewrite search_group_unfold.
  - simpl app. rewrite span_digits_app;
      [|done|simpl; intros ? [= <-]; apply digit_not_dot].
    rewrite bool_decide_eq_true_2 by done.
    assert (is_extension ("."%char :: ext) = true) as ->; [|done].
    apply is_extension_spec. by exists ext.
  - destruct (span_digits ((a :: stem) ++ g ++ "."%char :: ext))
      as [ds rest] eqn:Hspan.
    destruct (bool_decide (ds ≠ []) && is_extension rest) eqn:Hm.
    + exfalso. apply andb_true_iff in Hm as [_ Hx].
      apply is_extension_spec in Hx as (ext' & -> & _ & Hdot').
      apply span_digits_spec in Hspan as (Hs & Hds' & _).
      rewrite app_assoc in Hs.
      apply last_dot_unique in Hs as [Hs _]; [|done..].
      assert (∃ b, last (a :: stem) = Some b ∧ b ∈ ds) as (b & Hb & Hin).
      { rewrite <- Hs. destruct (last (a :: stem)) as [b|] eqn:Hl.
        - exists b. split; [done|].
          apply last_Some in Hl as [l' Hl]. rewrite Hl.
          rewrite elem_of_app, elem_of_app. left; right. by left.
        - by apply last_None in Hl. }
      rewrite Forall_forall in Hds'. specialize (Hds' b Hin).
      rewrite (Hlast b Hb) in Hds'. done.
    + simpl app. apply IH. intros b Hb. apply Hlast.
      destruct stem; [done|]. done.
Qed.

(** [detect_group] returns the number of the file name, the digits that
    end its stem before the last dot, when there is one (and it is
    unique); otherwise it returns the file name itself. *)
Theorem detect_group_number filename :
  (∀ group, numbered filename group → detect_group filename = group) ∧
  ((∀ group, ¬ numbered filename group) → detect_group filename = filename).
Proof.
  unfold detect_group. split.
  - intros g Hg. by rewrite (search_group_complete _ _ Hg).
  - intros Hno. destruct (search_group filename) as [g|] eqn:E; [|done].
    by destruct (Hno g (search_group_sound _ _ E)).
Qed.

Lemma detect_group_number_witness :
  detect_group (PyStr.lit "cpw_long_12.csv") = PyStr.lit "12".
Proof.
  apply (proj1 (detect_group_number (PyStr.lit "cpw_long_12.csv"))).
  exists (PyStr.lit "cpw_long_"), (PyStr.lit "csv").
  split_and!; [done|done| |by intros a [= <-]|done|].
  - by repeat constructor.
  - unfold PyStr.lit. simpl. rewrite !elem_of_cons, elem_of_nil.
    intros [H|[H|[H|[]]]]; discriminate H.
Defined.

Lemma add_file_lookup grouped name g :
  add_file grouped name !! g =
    if decide (in_group g name)
    then Some (default [] (grouped !! g) ++ [name])
    else grouped !! g.
Proof.
  unfold add_file. case_decide as Hin; unfold in_group in Hin.
  - destruct Hin as [[p Hp] <-]. rewrite Hp. by rewrite lookup_insert_eq.
  - destruct (detect_prefix name) as [p|] eqn:Hp; [|done].
    apply lookup_insert_ne. intros Hg. apply Hin. split; [by eexists|done].
Qed.

Lemma foldl_add_file_lookup names grouped g :
  foldl add_file grouped names !! g =
    match filter (in_group g) names with
    | [] => grouped !! g
    | files => Some (default [] (grouped !! g) ++ files)
    end.
Proof.
  revert grouped. induction names as [|name names IH]; intros grouped;
    [done|].
  cbn [foldl]. rewrite IH, add_file_lookup, filter_cons.
  destruct (decide (in_group g name)) as [Hin|Hin]; [|done].
  simpl. destruct (filter (in_group g) names) as [|f fs]; [done|].
  by rewrite <- app_assoc.
Qed.

(** The grouping of [main]: the list kept under a group id holds
    exactly the files that have a prefix and that group id, in the
    order in which they were listed; an id with no such file has no
    entry, so no list is empty; and nothing is grouped exactly when no
    file has a prefix. *)
Theorem group_files_lookup names :
  (∀ g, group_files names !! g =
        match filter (in_group g) names with
        | [] => None
        | files => Some files
        end) ∧
  (group_files names = ∅ ↔
     ∀ name, name ∈ names → detect_prefix name = None).
Proof.
  assert (∀ g, group_files names !! g =
        match filter (in_group g) names with
        | [] => None
        | files => Some files
        end) as Hlook.
  { intros g. unfold group_files. rewrite foldl_add_file_lookup.
    by destruct (filter _ _). }
  split; [done|]. split.
  - intros Hempty name Hin.
    destruct (detect_prefix name) as [p|] eqn:Hp; [exfalso|done].
    pose proof (Hlook (detect_group name)) as H.
    rewrite Hempty, lookup_empty in H.
    assert (name ∈ filter (in_group (detect_group name)) names) as Hf.
    { apply list_elem_of_filter. split; [|done]. split; [by eexists|done]. }
    destruct (filter _ _); [by apply elem_of_nil in Hf|done].
  - intros Hall. apply map_eq. intros g. rewrite Hlook, lookup_empty.
    destruct (filter (in_group g) names) as [|f fs] eqn:E; [done|].
    assert (f ∈ filter (in_group g) names) as Hf by (rewrite E; by left).
    apply list_elem_of_filter in Hf as [[[p Hp] _] Hin].
    rewrite (Hall f Hin) in Hp. done.
Qed.

End MergeSparams.
